(** * media-to-ascii: configuration, validation and progress logic of the
    desktop shell

    A shallow embedding of the TypeScript of the two panels
    ([image/Image.vue], [video/Video.vue]) and of [image/image.ts].

    - A JavaScript [number] is an IEEE-754 binary64 value: the Standard
      Library's [spec_float] at precision 53 and maximal exponent 1024,
      with its NaN, its infinities and its two zeros.
    - A JavaScript string is the sequence of its UTF-16 code units.
    - A field typed [string | null] and marked optional holds a string,
      [null] or [undefined].
    - An object whose shape is not known statically (what [JSON.parse]
      returns, what a spread builds) is a finite map from property names
      to values.
    - A Vue [computed] keeps the value its getter returned until a ref
      that the getter read is assigned a changed value; the next reading
      then runs the getter again. *)

From Stdlib Require Import ZArith Lia List Bool String Ascii DecimalString.
From Stdlib Require Import Sorted.
From Stdlib Require Import Floats.SpecFloat.
From stdpp Require Import base strings list gmap.

Local Open Scope Z_scope.

(* ===================================================================== *)
(** * Part I: the program *)
(* ===================================================================== *)

(** ** JavaScript numbers *)

Module Number.

Definition prec : Z := 53.
Definition emax : Z := 1024.

Abbreviation number := spec_float.

(** The values a [number] can hold: a finite one is in canonical form. *)
Definition valid (x : number) : Prop := valid_binary prec emax x = true.

Definition NaN : number := S754_nan.
Definition pos_zero : number := S754_zero false.
Definition neg_zero : number := S754_zero true.

(** The number denoted by an integer literal. *)
Definition of_Z (z : Z) : number := binary_normalize prec emax z 0 false.

(** The number denoted by the decimal literal [m]e[k]: the binary64 value
    nearest to [m * 10 ^ k], ties to even. *)
Definition of_decimal (m k : Z) : number :=
  match k with
  | Zneg p =>
      let den := 10 ^ Zpos p in
      match m with
      | Z0 => S754_zero false
      | Zpos mp =>
          let '(q, e, l) := SFdiv_core_binary prec emax (Zpos mp) 0 den 0 in
          binary_round_aux prec emax false q e l
      | Zneg mp =>
          let '(q, e, l) := SFdiv_core_binary prec emax (Zpos mp) 0 den 0 in
          binary_round_aux prec emax true q e l
      end
  | _ => binary_normalize prec emax (m * 10 ^ k) 0 false
  end.

(** [x <= y], [x < y], [x >= y], [x > y] and [x === y] on numbers. *)
Definition leb (x y : number) : bool := SFleb x y.
Definition ltb (x y : number) : bool := SFltb x y.
Definition geb (x y : number) : bool := SFleb y x.
Definition gtb (x y : number) : bool := SFltb y x.
Definition strict_eqb (x y : number) : bool := SFeqb x y.

(** SameValueZero, the comparison of [Array.prototype.includes]: NaN is
    the same as NaN, and the two zeros are the same. *)
Definition same_value_zero (x y : number) : bool :=
  match x, y with
  | S754_nan, S754_nan => true
  | _, _ => SFeqb x y
  end.

(** [x * y] *)
Definition mul (x y : number) : number := SFmul prec emax x y.

(** [Math.floor]: NaN, the infinities and the zeros are returned as they
    are, and so is a finite number with no fractional bit; otherwise the
    largest integer below, which is [+0] for a number in (0, 1). *)
Definition Math_floor (x : number) : number :=
  match x with
  | S754_finite s m e =>
      if 0 <=? e then x
      else binary_normalize prec emax
             (Z.shiftr (cond_Zopp s (Zpos m)) (- e)) 0 s
  | _ => x
  end.

(** [Math.min] of two numbers: NaN if either is NaN, and [-0] is below
    [+0]. *)
Definition Math_min (x y : number) : number :=
  match x, y with
  | S754_nan, _ | _, S754_nan => S754_nan
  | S754_zero sx, S754_zero sy => S754_zero (sx || sy)
  | _, _ => if SFltb y x then y else x
  end.

(** Structural equality of numbers, as a boolean. *)
Definition sf_eqb (x y : number) : bool :=
  match x, y with
  | S754_zero s, S754_zero t => Bool.eqb s t
  | S754_infinity s, S754_infinity t => Bool.eqb s t
  | S754_nan, S754_nan => true
  | S754_finite s m e, S754_finite t n f =>
      Bool.eqb s t && Pos.eqb m n && Z.eqb e f
  | _, _ => false
  end.

(** [x - y] and [x / y] *)
Definition sub (x y : number) : number := SFsub prec emax x y.
Definition div (x y : number) : number := SFdiv prec emax x y.

(** [x % y], the remainder of the truncating division; it has the sign
    of [x] and is exact. *)
Definition rem (x y : number) : number :=
  match x, y with
  | S754_nan, _ | _, S754_nan => S754_nan
  | S754_infinity _, _ => S754_nan
  | _, S754_zero _ => S754_nan
  | S754_zero _, _ => x
  | _, S754_infinity _ => x
  | S754_finite sx mx ex, S754_finite _ my ey =>
      let e := Z.min ex ey in
      let r := Z.rem (Zpos mx * 2 ^ (ex - e)) (Zpos my * 2 ^ (ey - e)) in
      binary_normalize prec emax (cond_Zopp sx r) e sx
  end.

(** ToBoolean of a number: the zeros and NaN are falsy. *)
Definition number_truthy (x : number) : bool :=
  match x with
  | S754_zero _ | S754_nan => false
  | _ => true
  end.

End Number.

Import Number.

(** ** JavaScript strings *)

Module JSString.

(** A string is the list of its UTF-16 code units. *)
Abbreviation jsstring := (list N).

(** The string written by an ASCII literal of the source. *)
Definition lit (s : string) : jsstring :=
  map N_of_ascii (list_ascii_of_string s).

(** WhiteSpace and LineTerminator code points, which [trim] strips. *)
Definition is_white_space (c : N) : bool :=
  ((c =? 9) || (c =? 10) || (c =? 11) || (c =? 12) || (c =? 13)
   || (c =? 32) || (c =? 160) || (c =? 5760)
   || ((8192 <=? c) && (c <=? 8202))
   || (c =? 8232) || (c =? 8233) || (c =? 8239) || (c =? 8287)
   || (c =? 12288) || (c =? 65279))%N.

Fixpoint trim_start (s : jsstring) : jsstring :=
  match s with
  | c :: s' => if is_white_space c then trim_start s' else s
  | [] => []
  end.

Definition trim_end (s : jsstring) : jsstring :=
  rev (trim_start (rev s)).

(** [s.trim()] *)
Definition trim (s : jsstring) : jsstring := trim_end (trim_start s).

(** ToBoolean of a string: the empty string alone is falsy. *)
Definition truthy (s : jsstring) : bool :=
  match s with [] => false | _ => true end.

(** [s.includes(c)] for a needle of one code unit. *)
Definition includes (s : jsstring) (c : N) : bool :=
  existsb (N.eqb c) s.

(** [s.endsWith(c)] for a needle of one code unit. *)
Definition endsWith (s : jsstring) (c : N) : bool :=
  match rev s with
  | d :: _ => N.eqb d c
  | [] => false
  end.

(** [s.startsWith(p)] together with the rest of [s]. *)
Fixpoint strip_prefix (p s : jsstring) : option jsstring :=
  match p, s with
  | [], _ => Some s
  | a :: p', b :: s' => if N.eqb a b then strip_prefix p' s' else None
  | _ :: _, [] => None
  end.

Fixpoint lastIndexOf_from (s : jsstring) (c : N) (i found : Z) : Z :=
  match s with
  | [] => found
  | d :: s' => lastIndexOf_from s' c (i + 1) (if N.eqb d c then i else found)
  end.

(** [s.lastIndexOf(c)] for a needle of one code unit: the index of its
    last occurrence, or -1. *)
Definition lastIndexOf (s : jsstring) (c : N) : Z :=
  lastIndexOf_from s c 0 (-1).

(** [s.substring(start, stop)]: both indices are clamped to the string,
    and swapped when the first is the larger. *)
Definition substring (s : jsstring) (start stop : Z) : jsstring :=
  let len := Z.of_nat (length s) in
  let a := Z.min (Z.max start 0) len in
  let b := Z.min (Z.max stop 0) len in
  firstn (Z.to_nat (Z.max a b - Z.min a b)) (skipn (Z.to_nat (Z.min a b)) s).

End JSString.

Import JSString.

(** A value of type [string | null | undefined]. *)
Inductive opt_string : Type :=
| JSundefined
| JSnull
| JSstr (s : jsstring).

(** ToBoolean: [undefined], [null] and the empty string are falsy. *)
Definition opt_truthy (p : opt_string) : bool :=
  match p with
  | JSstr s => truthy s
  | _ => false
  end.

(** [p?.trim() || null] *)
Definition trim_or_null (p : opt_string) : opt_string :=
  match p with
  | JSstr s => if truthy (trim s) then JSstr (trim s) else JSnull
  | _ => JSnull
  end.

(** ** Values and objects *)

#[local] Unset Elimination Schemes.

(** The values [JSON.parse] can return, and [undefined]. An object lists
    its members in the order of the text, duplicates included. *)
Inductive JSValue : Type :=
| VUndefined
| VNull
| VBool (b : bool)
| VNum (x : number)
| VStr (s : jsstring)
| VArr (items : list JSValue)
| VObj (members : list (jsstring * JSValue)).

#[local] Set Elimination Schemes.

(** The property name of the index [i]. *)
Definition index_key (i : nat) : jsstring :=
  lit (NilEmpty.string_of_uint (Nat.to_uint i)).

(** The own enumerable properties a spread [...v] copies, in order: the
    members of an object, the indices of an array or of a string, and
    nothing for the other values. *)
Definition own_properties (v : JSValue) : list (jsstring * JSValue) :=
  match v with
  | VObj members => members
  | VArr items => imap (fun i x => (index_key i, x)) items
  | VStr s => imap (fun i c => (index_key i, VStr [c])) s
  | _ => []
  end.

(** [{ ...target, ...v }]: each copied property is set on the target, a
    later one replacing an earlier one of the same name. *)
Definition spread (target : gmap jsstring JSValue) (v : JSValue)
  : gmap jsstring JSValue :=
  foldl (fun o kv => <[kv.1 := kv.2]> o) target (own_properties v).

(** *** JSON.parse *)

Module JSON.

Definition is_ws (c : N) : bool :=
  ((c =? 32) || (c =? 9) || (c =? 10) || (c =? 13))%N.

Fixpoint skip_ws (s : jsstring) : jsstring :=
  match s with
  | c :: s' => if is_ws c then skip_ws s' else s
  | [] => []
  end.

Definition is_digit (c : N) : bool := ((48 <=? c) && (c <=? 57))%N.

Definition hex_value (c : N) : option N :=
  (if is_digit c then Some (c - 48)
   else if (97 <=? c) && (c <=? 102) then Some (c - 87)
   else if (65 <=? c) && (c <=? 70) then Some (c - 55)
   else None)%N.

Definition hex4 (a b c d : N) : option N :=
  match hex_value a, hex_value b, hex_value c, hex_value d with
  | Some x, Some y, Some z, Some w => Some (((x * 16 + y) * 16 + z) * 16 + w)%N
  | _, _, _, _ => None
  end.

(** The characters of a string after its opening quote, up to the closing
    one, with the escapes decoded; [acc] holds them in reverse. *)
Fixpoint parse_string_body (s acc : jsstring) : option (jsstring * jsstring) :=
  match s with
  | [] => None
  | c :: rest =>
      if (c =? 34)%N then Some (rev acc, rest)
      else if (c =? 92)%N then
        match rest with
        | [] => None
        | e :: r =>
            if (e =? 34)%N then parse_string_body r (34%N :: acc)
            else if (e =? 92)%N then parse_string_body r (92%N :: acc)
            else if (e =? 47)%N then parse_string_body r (47%N :: acc)
            else if (e =? 98)%N then parse_string_body r (8%N :: acc)
            else if (e =? 102)%N then parse_string_body r (12%N :: acc)
            else if (e =? 110)%N then parse_string_body r (10%N :: acc)
            else if (e =? 114)%N then parse_string_body r (13%N :: acc)
            else if (e =? 116)%N then parse_string_body r (9%N :: acc)
            else if (e =? 117)%N then
              match r with
              | h1 :: h2 :: h3 :: h4 :: r' =>
                  match hex4 h1 h2 h3 h4 with
                  | Some u => parse_string_body r' (u :: acc)
                  | None => None
                  end
              | _ => None
              end
            else None
        end
      else if (c <? 32)%N then None
      else parse_string_body rest (c :: acc)
  end.

Fixpoint span_digits (s : jsstring) : jsstring * jsstring :=
  match s with
  | c :: s' =>
      if is_digit c then let '(ds, r) := span_digits s' in (c :: ds, r)
      else ([], s)
  | [] => ([], [])
  end.

Definition digits_value (ds : jsstring) : Z :=
  fold_left (fun acc c => 10 * acc + Z.of_N (c - 48)) ds 0.

(** The integer part: a single [0], or digits that start with [1-9]. *)
Definition parse_int (s : jsstring) : option (jsstring * jsstring) :=
  match s with
  | c :: r =>
      if (c =? 48)%N then Some ([c], r)
      else if is_digit c then Some (span_digits s)
      else None
  | [] => None
  end.

(** The fraction, if there is one: a dot and at least one digit. *)
Definition parse_frac (s : jsstring) : option (jsstring * jsstring) :=
  match s with
  | c :: r =>
      if (c =? 46)%N then
        match span_digits r with
        | ([], _) => None
        | (ds, r') => Some (ds, r')
        end
      else Some ([], s)
  | [] => Some ([], s)
  end.

(** The exponent, if there is one: [e] or [E], a sign, at least one
    digit. *)
Definition parse_exp (s : jsstring) : option (Z * jsstring) :=
  match s with
  | c :: r =>
      if ((c =? 101) || (c =? 69))%N then
        let '(neg, r1) :=
          match r with
          | sg :: r' =>
              if (sg =? 45)%N then (true, r')
              else if (sg =? 43)%N then (false, r')
              else (false, r)
          | [] => (false, r)
          end in
        match span_digits r1 with
        | ([], _) => None
        | (ds, r2) =>
            Some (if neg then - digits_value ds else digits_value ds, r2)
        end
      else Some (0, s)
  | [] => Some (0, s)
  end.

Definition parse_number (s : jsstring) : option (number * jsstring) :=
  let '(neg, s1) :=
    match s with
    | c :: r => if (c =? 45)%N then (true, r) else (false, s)
    | [] => (false, s)
    end in
  '(ip, s2) ← parse_int s1;
  '(fp, s3) ← parse_frac s2;
  '(ex, s4) ← parse_exp s3;
  let x := of_decimal (digits_value (ip ++ fp)) (ex - Z.of_nat (length fp)) in
  Some (if neg then SFopp x else x, s4).

(** A value, then what follows it. The fuel bounds the number of nested
    and successive values; running out of it stands for the exception of
    an engine that gives up on a text. *)
Fixpoint parse_value (fuel : nat) (s : jsstring) {struct fuel}
  : option (JSValue * jsstring) :=
  match fuel with
  | O => None
  | S fuel =>
      match skip_ws s with
      | [] => None
      | c :: rest =>
          if (c =? 123)%N then
            match skip_ws rest with
            | c' :: rest' =>
                if (c' =? 125)%N then Some (VObj [], rest')
                else parse_members fuel rest []
            | [] => None
            end
          else if (c =? 91)%N then
            match skip_ws rest with
            | c' :: rest' =>
                if (c' =? 93)%N then Some (VArr [], rest')
                else parse_elements fuel rest []
            | [] => None
            end
          else if (c =? 34)%N then
            '(str, r) ← parse_string_body rest [];
            Some (VStr str, r)
          else
            match strip_prefix (lit "true") (c :: rest),
                  strip_prefix (lit "false") (c :: rest),
                  strip_prefix (lit "null") (c :: rest) with
            | Some r, _, _ => Some (VBool true, r)
            | _, Some r, _ => Some (VBool false, r)
            | _, _, Some r => Some (VNull, r)
            | None, None, None =>
                '(x, r) ← parse_number (c :: rest);
                Some (VNum x, r)
            end
      end
  end
with parse_elements (fuel : nat) (s : jsstring) (acc : list JSValue)
       {struct fuel} : option (JSValue * jsstring) :=
  match fuel with
  | O => None
  | S fuel =>
      '(v, rest) ← parse_value fuel s;
      match skip_ws rest with
      | c :: rest' =>
          if (c =? 44)%N then parse_elements fuel rest' (v :: acc)
          else if (c =? 93)%N then Some (VArr (rev (v :: acc)), rest')
          else None
      | [] => None
      end
  end
with parse_members (fuel : nat) (s : jsstring)
       (acc : list (jsstring * JSValue)) {struct fuel}
  : option (JSValue * jsstring) :=
  match fuel with
  | O => None
  | S fuel =>
      match skip_ws s with
      | c :: rest =>
          if (c =? 34)%N then
            '(key, rest1) ← parse_string_body rest [];
            match skip_ws rest1 with
            | c1 :: rest2 =>
                if (c1 =? 58)%N then
                  '(v, rest3) ← parse_value fuel rest2;
                  match skip_ws rest3 with
                  | c3 :: rest4 =>
                      if (c3 =? 44)%N then
                        parse_members fuel rest4 ((key, v) :: acc)
                      else if (c3 =? 125)%N then
                        Some (VObj (rev ((key, v) :: acc)), rest4)
                      else None
                  | [] => None
                  end
                else None
            | [] => None
            end
          else None
      | [] => None
      end
  end.

(** [JSON.parse(text)]: the value, or [None] when it throws. *)
Definition parse (text : jsstring) : option JSValue :=
  match parse_value (2 * length text + 2) text with
  | Some (v, rest) =>
      match skip_ws rest with
      | [] => Some v
      | _ :: _ => None
      end
  | None => None
  end.

End JSON.

(** ** image/image.ts *)

Module image.

Record ImageConfig : Type := {
  image_path : jsstring;
  scale_down : number;
  font_size : number;
  height_sample_scale : number;
  invert : bool;
  output_file_path : opt_string;
  output_image_path : opt_string;
  overwrite : bool
}.

Definition defaultImageConfig : ImageConfig := {|
  image_path := [];
  scale_down := of_decimal 10 (-1);
  font_size := of_decimal 120 (-1);
  height_sample_scale := of_decimal 2046 (-3);
  invert := false;
  output_file_path := JSnull;
  output_image_path := JSnull;
  overwrite := false
|}.

Definition of_opt_string (p : opt_string) : JSValue :=
  match p with
  | JSundefined => VUndefined
  | JSnull => VNull
  | JSstr s => VStr s
  end.

(** The object a configuration is at run time. *)
Definition to_object (c : ImageConfig) : gmap jsstring JSValue :=
  list_to_map
    [ (lit "image_path", VStr (image_path c));
      (lit "scale_down", VNum (scale_down c));
      (lit "font_size", VNum (font_size c));
      (lit "height_sample_scale", VNum (height_sample_scale c));
      (lit "invert", VBool (invert c));
      (lit "output_file_path", of_opt_string (output_file_path c));
      (lit "output_image_path", of_opt_string (output_image_path c));
      (lit "overwrite", VBool (overwrite c)) ].

Definition as_string (v : option JSValue) : option jsstring :=
  match v with Some (VStr s) => Some s | _ => None end.

Definition as_number (v : option JSValue) : option number :=
  match v with Some (VNum x) => Some x | _ => None end.

Definition as_boolean (v : option JSValue) : option bool :=
  match v with Some (VBool b) => Some b | _ => None end.

Definition as_opt_string (v : option JSValue) : option opt_string :=
  match v with
  | None | Some VUndefined => Some JSundefined
  | Some VNull => Some JSnull
  | Some (VStr s) => Some (JSstr s)
  | Some _ => None
  end.

(** The configuration an object is, when each declared field holds a
    value of its declared type: what the interface [ImageConfig] asks of
    an object. *)
Definition of_object (o : gmap jsstring JSValue) : option ImageConfig :=
  ip ← as_string (o !! lit "image_path");
  sd ← as_number (o !! lit "scale_down");
  fs ← as_number (o !! lit "font_size");
  hs ← as_number (o !! lit "height_sample_scale");
  iv ← as_boolean (o !! lit "invert");
  tp ← as_opt_string (o !! lit "output_file_path");
  gp ← as_opt_string (o !! lit "output_image_path");
  ow ← as_boolean (o !! lit "overwrite");
  Some {| image_path := ip; scale_down := sd; font_size := fs;
          height_sample_scale := hs; invert := iv;
          output_file_path := tp; output_image_path := gp;
          overwrite := ow |}.

End image.

(** What [await invoke(...)] does: it resolves, or it throws a message. *)
Inductive invoke_result : Type :=
| Resolved
| Rejected (message : jsstring).

Inductive status_t : Type := idle | processing_s | done | error.

(** [errors.push(msg)] under [if (cond)] *)
Definition push_if (cond : bool) (msg : jsstring) (errors : list jsstring)
  : list jsstring :=
  if cond then errors ++ [msg] else errors.

(** ** image/Image.vue *)

Module ImagePanel.

Import image.

(** [localStorage.getItem(STORAGE_KEY)] is [saved]: a string, or [null]. *)
Definition loadPersistedConfig (saved : option jsstring)
  : gmap jsstring JSValue :=
  match saved with
  | Some text =>
      if truthy text then
        match JSON.parse text with
        | Some parsed => spread (to_object defaultImageConfig) parsed
        | None => to_object defaultImageConfig
        end
      else to_object defaultImageConfig
  | None => to_object defaultImageConfig
  end.

Definition msg_input : jsstring := lit "Input image is required.".
Definition msg_output : jsstring :=
  lit "Choose at least one output: text file or image file.".
Definition msg_scale_down : jsstring :=
  lit "Scale down must be greater than 0.".
Definition msg_font_size : jsstring :=
  lit "Font size must be greater than 0.".
Definition msg_height_sample_scale : jsstring :=
  lit "Height sample scale must be greater than 0.".

Definition validationErrors (config : ImageConfig) : list jsstring :=
  let errors := [] in
  let errors :=
    push_if (negb (truthy (trim (image_path config)))) msg_input errors in
  let errors :=
    push_if (negb (opt_truthy (output_file_path config))
             && negb (opt_truthy (output_image_path config)))
            msg_output errors in
  let errors :=
    push_if (leb (scale_down config) pos_zero) msg_scale_down errors in
  let errors :=
    push_if (leb (font_size config) pos_zero) msg_font_size errors in
  let errors :=
    push_if (leb (height_sample_scale config) pos_zero)
            msg_height_sample_scale errors in
  errors.

(** [canSubmit] enables the button that runs [processImage]. *)
Definition canSubmit (processing : bool) (config : ImageConfig) : bool :=
  negb processing && (length (validationErrors config) =? 0)%nat.

Record state : Type := {
  status : status_t;
  statusDetail : jsstring;
  processError : opt_string;
  processing : bool;
  outputs : list jsstring
}.

(** The [payload] constant of [processImage]. *)
Definition payload (config : ImageConfig) : ImageConfig := {|
  image_path := image_path config;
  scale_down := scale_down config;
  font_size := font_size config;
  height_sample_scale := height_sample_scale config;
  invert := invert config;
  output_file_path := trim_or_null (output_file_path config);
  output_image_path := trim_or_null (output_image_path config);
  overwrite := overwrite config
|}.

(** [[a, b].filter(Boolean) as string[]] *)
Definition filter_Boolean (l : list opt_string) : list jsstring :=
  flat_map (fun p => match p with
                     | JSstr s => if truthy s then [s] else []
                     | _ => []
                     end) l.

(** [processImage], given what the [process_image] command answers to
    the payload: the payload it was invoked with, and the state left. *)
Definition processImage (process_image : ImageConfig -> invoke_result)
           (config : ImageConfig) : ImageConfig * state :=
  let p := payload config in
  match process_image p with
  | Resolved =>
      (p, {| status := done;
             statusDetail := lit "ASCII image ready";
             processError := JSnull;
             processing := false;
             outputs := filter_Boolean
                          [output_file_path p; output_image_path p] |})
  | Rejected message =>
      (p, {| status := error;
             statusDetail := lit "Something went wrong";
             processError := JSstr message;
             processing := false;
             outputs := [] |})
  end.

(** The three pickers, given what the dialog returned: a string, or
    something else when it is dismissed. *)
Definition pickImage (selected : option jsstring) (config : ImageConfig)
  : ImageConfig :=
  match selected with
  | Some path =>
      {| image_path := path;
         scale_down := scale_down config;
         font_size := font_size config;
         height_sample_scale := height_sample_scale config;
         invert := invert config;
         output_file_path := output_file_path config;
         output_image_path := output_image_path config;
         overwrite := overwrite config |}
  | None => config
  end.

Definition pickTextOutput (selected : option jsstring) (config : ImageConfig)
  : ImageConfig :=
  match selected with
  | Some path =>
      {| image_path := image_path config;
         scale_down := scale_down config;
         font_size := font_size config;
         height_sample_scale := height_sample_scale config;
         invert := invert config;
         output_file_path := JSstr path;
         output_image_path := output_image_path config;
         overwrite := overwrite config |}
  | None => config
  end.

Definition pickImageOutput (selected : option jsstring) (config : ImageConfig)
  : ImageConfig :=
  match selected with
  | Some path =>
      {| image_path := image_path config;
         scale_down := scale_down config;
         font_size := font_size config;
         height_sample_scale := height_sample_scale config;
         invert := invert config;
         output_file_path := output_file_path config;
         output_image_path := JSstr path;
         overwrite := overwrite config |}
  | None => config
  end.

End ImagePanel.

(** ** video/video.ts *)

Module video.

(** Modelled from the spec: the interface [VideoConfig] of
    [video/video.ts], which is not among the sources. Its fields are
    those that [Video.vue] reads and writes, with the types that
    section 3 of the specification gives them. *)
Record VideoConfig : Type := {
  video_path : jsstring;
  output_video_path : opt_string;
  scale_down : number;
  font_size : number;
  height_sample_scale : number;
  max_fps : number;
  use_max_fps_for_output_video : bool;
  rotate : number;
  invert : bool;
  overwrite : bool
}.

Definition set_output_video_path (p : opt_string) (c : VideoConfig)
  : VideoConfig := {|
  video_path := video_path c;
  output_video_path := p;
  scale_down := scale_down c;
  font_size := font_size c;
  height_sample_scale := height_sample_scale c;
  max_fps := max_fps c;
  use_max_fps_for_output_video := use_max_fps_for_output_video c;
  rotate := rotate c;
  invert := invert c;
  overwrite := overwrite c
|}.

End video.

(** ** video/Video.vue *)

Module VideoPanel.

Import video.

(** [defaultVideoConfig()] is defined in [video/video.ts]; the object it
    returns is taken as given. *)
Definition loadPersistedConfig (defaultVideoConfig : gmap jsstring JSValue)
           (saved : option jsstring) : gmap jsstring JSValue :=
  match saved with
  | Some text =>
      if truthy text then
        match JSON.parse text with
        | Some parsed => spread defaultVideoConfig parsed
        | None => defaultVideoConfig
        end
      else defaultVideoConfig
  | None => defaultVideoConfig
  end.

Record state : Type := {
  progress : number;
  status : status_t;
  statusDetail : jsstring;
  processError : opt_string;
  processing : bool;
  outputPath : opt_string;
  startedAt : option number;
  progressWatcherRunning : bool
}.

Definition is_processing (s : status_t) : bool :=
  match s with processing_s => true | _ => false end.

(** The value the listener of ["video-progress"] stores. *)
Definition displayed (payload : number) : number :=
  Math_min (of_Z 100) (Math_floor (mul payload (of_Z 100))).

(** The listener that [attachProgressListener] registers, run on one
    event. *)
Definition on_video_progress (payload : number) (st : state) : state :=
  let p := displayed payload in
  {| progress := p;
     status := status st;
     statusDetail :=
       if geb p (of_Z 100) && is_processing (status st)
       then lit "Finishing up..." else statusDetail st;
     processError := processError st;
     processing := processing st;
     outputPath := outputPath st;
     startedAt := startedAt st;
     progressWatcherRunning := progressWatcherRunning st |}.

(** The values the bar shows after each event of a feed, in order. *)
Fixpoint progress_trace (st : state) (feed : list number) : list number :=
  match feed with
  | [] => []
  | payload :: feed' =>
      let st' := on_video_progress payload st in
      progress st' :: progress_trace st' feed'
  end.

Definition msg_input : jsstring := lit "Input video is required.".
Definition msg_output : jsstring :=
  lit "Output video path is required (MP4).".
Definition msg_scale_down : jsstring :=
  lit "Scale down must be greater than 0.".
Definition msg_font_size : jsstring :=
  lit "Font size must be greater than 0.".
Definition msg_height_sample_scale : jsstring :=
  lit "Height sample scale must be greater than 0.".
Definition msg_max_fps : jsstring := lit "Max FPS must be greater than 0.".
Definition msg_rotate : jsstring :=
  lit "Rotate must be -1 (no rotate), 0 (90 CW), 1 (180), or 2 (90 CCW).".

(** [!p || p.trim().length === 0] *)
Definition output_missing (p : opt_string) : bool :=
  match p with
  | JSstr s => negb (truthy s) || (length (trim s) =? 0)%nat
  | _ => true
  end.

(** [rotate !== -1 && ![0, 1, 2].includes(rotate)] *)
Definition rotate_invalid (r : number) : bool :=
  negb (strict_eqb r (of_Z (-1)))
  && negb (existsb (fun x => same_value_zero x r) [of_Z 0; of_Z 1; of_Z 2]).

Definition validationErrors (config : VideoConfig) : list jsstring :=
  let errors := [] in
  let errors :=
    push_if (negb (truthy (trim (video_path config)))) msg_input errors in
  let errors :=
    push_if (output_missing (output_video_path config)) msg_output errors in
  let errors :=
    push_if (leb (scale_down config) pos_zero) msg_scale_down errors in
  let errors :=
    push_if (leb (font_size config) pos_zero) msg_font_size errors in
  let errors :=
    push_if (leb (height_sample_scale config) pos_zero)
            msg_height_sample_scale errors in
  let errors :=
    push_if (leb (max_fps config) pos_zero) msg_max_fps errors in
  let errors :=
    push_if (rotate_invalid (rotate config)) msg_rotate errors in
  errors.

Definition backslash : N := 92%N.
Definition slash : N := 47%N.

(** The [separator] and [path] constants of [pickOutputFile], and the
    value it assigns. *)
Definition separator (selected : jsstring) : N :=
  if includes selected backslash then backslash else slash.

Definition output_path (selected : jsstring) : jsstring :=
  let path :=
    if endsWith selected (separator selected) then selected
    else selected ++ [separator selected] in
  path ++ lit "output.mp4".

(** [pickOutputFile], given what the folder picker returned: a string,
    or something else ([null], when the dialog is dismissed). *)
Definition pickOutputFile (selected : option jsstring)
           (config : VideoConfig) : VideoConfig :=
  match selected with
  | Some dir => set_output_video_path (JSstr (output_path dir)) config
  | None => config
  end.

(** The [payload] constant of [processVideo]. *)
Definition payload (config : VideoConfig) : VideoConfig :=
  set_output_video_path (trim_or_null (output_video_path config)) config.

(** [p ?? null] *)
Definition or_null (p : opt_string) : opt_string :=
  match p with
  | JSstr s => JSstr s
  | _ => JSnull
  end.

(** [processVideo] up to the point where it awaits [process_video];
    [now] is [Date.now()]. *)
Definition processVideo_begin (now : number) (st : state) : state :=
  {| progress := of_Z 0;
     status := processing_s;
     statusDetail := lit "Preparing video...";
     processError := JSnull;
     processing := true;
     outputPath := JSnull;
     startedAt := Some now;
     progressWatcherRunning := true |}.

(** [processVideo] from the point where [process_video] has settled. *)
Definition processVideo_settle (result : invoke_result) (p : VideoConfig)
           (st : state) : state :=
  match result with
  | Resolved =>
      {| progress := of_Z 100;
         status := done;
         statusDetail := lit "Finished writing output";
         processError := processError st;
         processing := false;
         outputPath := or_null (output_video_path p);
         startedAt := startedAt st;
         progressWatcherRunning := progressWatcherRunning st |}
  | Rejected message =>
      {| progress := progress st;
         status := error;
         statusDetail := lit "Something went wrong";
         processError := JSstr message;
         processing := false;
         outputPath := outputPath st;
         startedAt := startedAt st;
         progressWatcherRunning := progressWatcherRunning st |}
  end.

(** One run of [processVideo]: the events of [feed] arrive while the
    command runs, and the command then settles with [result]. *)
Definition processVideo (now : number) (config : VideoConfig)
           (feed : list number) (result : invoke_result) (st : state)
  : state :=
  let p := payload config in
  let st := processVideo_begin now st in
  let st := fold_left (fun s e => on_video_progress e s) feed st in
  processVideo_settle result p st.

Definition canSubmit (st : state) (config : VideoConfig) : bool :=
  negb (processing st) && (length (validationErrors config) =? 0)%nat.

(** The [defaultPath] that [pickOutputFile] hands to the folder picker:
    the current output path up to its last slash, or [undefined]. *)
Definition defaultPath (config : VideoConfig) : opt_string :=
  match output_video_path config with
  | JSstr p =>
      if truthy p then JSstr (substring p 0 (lastIndexOf p slash))
      else JSundefined
  | _ => JSundefined
  end.

(** [v-if="outputPath && status === 'done'"], the condition under which
    the template shows the saved file and its OPEN button. *)
Definition saved_shown (st : state) : bool :=
  opt_truthy (outputPath st)
  && match status st with done => true | _ => false end.

(** A template literal, kept as its pieces: [text s] for literal text
    and [num x] for an interpolated number [${x}]. *)
Inductive piece : Type :=
| text (s : jsstring)
| num (x : number).

(** The getter of [elapsedText]; [now] is what [Date.now()] returns when
    the getter runs. *)
Definition elapsedText_getter (now : number) (st : state)
  : option (list piece) :=
  match startedAt st with
  | None => None
  | Some started =>
      if negb (number_truthy started) then None
      else
        let ms := sub now started in
        let seconds := Math_floor (div ms (of_Z 1000)) in
        if ltb seconds (of_Z 60) then
          Some [num seconds; text (lit "s elapsed")]
        else
          let minutes := Math_floor (div seconds (of_Z 60)) in
          Some [num minutes; text (lit "m ");
                num (rem seconds (of_Z 60)); text (lit "s elapsed")]
  end.

(** [resetState] *)
Definition resetState (st : state) : state :=
  {| progress := of_Z 0;
     status := idle;
     statusDetail := lit "Waiting to start";
     processError := JSnull;
     processing := processing st;
     outputPath := JSnull;
     startedAt := None;
     progressWatcherRunning := progressWatcherRunning st |}.

(** The panel with its [computed]: [elapsedText] keeps the value its
    getter returned, and [elapsed = None] marks a value to compute
    again. Of what the getter reads only the ref [startedAt] is
    reactive; [Date.now()] is not. *)
Record panel : Type := {
  refs : state;
  elapsed : option (option (list piece))
}.

(** [Object.is] on the values of [startedAt], [null] or a number: a ref
    notifies its readers when it is assigned a value that differs from
    its old one in this sense. *)
Definition Object_is (a b : option number) : bool :=
  match a, b with
  | None, None => true
  | Some x, Some y => sf_eqb x y
  | _, _ => false
  end.

(** The refs are assigned the values of [st']; the kept value of
    [elapsedText] is dropped when [startedAt] changed. *)
Definition assign (st' : state) (p : panel) : panel :=
  {| refs := st';
     elapsed := if Object_is (startedAt (refs p)) (startedAt st')
                then elapsed p else None |}.

(** A reading of [elapsedText] when [Date.now()] is [now]: the value
    read, and the panel afterwards. The getter runs only if no value is
    kept. *)
Definition elapsedText (now : number) (p : panel)
  : option (list piece) * panel :=
  match elapsed p with
  | Some v => (v, p)
  | None =>
      let v := elapsedText_getter now (refs p) in
      (v, {| refs := refs p; elapsed := Some v |})
  end.

(** What happens to the panel: [processVideo] starts, a progress event
    arrives, [process_video] settles, RESET is clicked, the template is
    rendered and reads [elapsedText]. *)
Inductive event : Type :=
| Started (now : number)
| Progressed (payload : number)
| Settled (result : invoke_result) (p : VideoConfig)
| Reset
| Rendered (now : number).

Definition step (p : panel) (e : event) : panel :=
  match e with
  | Started now => assign (processVideo_begin now (refs p)) p
  | Progressed payload => assign (on_video_progress payload (refs p)) p
  | Settled result c => assign (processVideo_settle result c (refs p)) p
  | Reset => assign (resetState (refs p)) p
  | Rendered now => snd (elapsedText now p)
  end.

Definition steps (p : panel) (events : list event) : panel :=
  fold_left step events p.

End VideoPanel.

(** ** The engine behind the commands *)

Module VideoPipeline.

(** Modelled from the spec: the progress reports of the Video Pipeline
    (sections 3 and 4.5), whose code is not among the sources. While
    streaming, the pipeline reports [frames_consumed /
    total_frames_estimate] after each frame; a run that finalizes its
    output then reports 1.0; a failed or cancelled run reports nothing
    more. *)
Inductive outcome : Type := Done | Failed | Cancelled.

Definition frame_report (total consumed : nat) : number :=
  SFdiv prec emax (of_Z (Z.of_nat consumed)) (of_Z (Z.of_nat total)).

Definition reports (total consumed : nat) (o : outcome) : list number :=
  map (frame_report total) (seq 1 consumed)
  ++ match o with
     | Done => [of_Z 1]
     | Failed | Cancelled => []
     end.

(** What [process_video] answers at the end of a run. *)
Definition answer (o : outcome) : invoke_result :=
  match o with
  | Done => Resolved
  | Failed => Rejected (lit "Failed")
  | Cancelled => Rejected (lit "Cancelled")
  end.

End VideoPipeline.

Module ImagePipeline.

Import image.

(** Modelled from the spec: the Image Pipeline of section 4.4 with the
    failures of section 7; the engine's code is not among the sources.
    The run validates the configuration, decodes and samples. In the
    Writing stage it first checks every requested sink against
    [overwrite], before any byte is written to any sink; it then writes
    the text sink, and then runs the rasterizer of section 4.3, encodes
    and writes the image sink. A failure of the rasterizer or of the
    encoder ends the run and leaves the outputs already written as they
    are. *)
Inductive failure : Type :=
| InvalidConfig
| DecodeError
| InvalidDimensions
| UnsupportedOutputFormat
| UnsupportedFont
| OutputExists.

Abbreviation bytes := (list N).

(** The stages of sections 4.1 to 4.3, which the pipeline orchestrates. *)
Record stages : Type := {
  FrameBuffer : Type;
  GlyphGrid : Type;
  Canvas : Type;
  decode : jsstring -> option FrameBuffer;
  sample : FrameBuffer -> number -> number -> bool -> option GlyphGrid;
  text_of : GlyphGrid -> bytes;
  rasterize : GlyphGrid -> number -> option Canvas;
  encode : Canvas -> jsstring -> option bytes
}.

Definition is_set (p : opt_string) : bool :=
  match p with JSstr _ => true | _ => false end.

Definition config_ok (c : ImageConfig) : bool :=
  (is_set (output_file_path c) || is_set (output_image_path c))
  && gtb (scale_down c) pos_zero
  && gtb (font_size c) pos_zero
  && gtb (height_sample_scale c) pos_zero.

(** The destinations a configuration requests. *)
Definition requested (c : ImageConfig) : list jsstring :=
  match output_file_path c with JSstr p => [p] | _ => [] end
  ++ match output_image_path c with JSstr p => [p] | _ => [] end.

(** The overwrite guard of one destination. *)
Definition may_write (overwrite : bool) (fs : gmap jsstring bytes)
           (p : jsstring) : bool :=
  overwrite || match fs !! p with Some _ => false | None => true end.

(** The text sink: the grid, glyph by glyph. *)
Definition write_text (E : stages) (c : ImageConfig) (g : GlyphGrid E)
           (fs : gmap jsstring bytes) : gmap jsstring bytes :=
  match output_file_path c with
  | JSstr p => <[p := text_of E g]> fs
  | _ => fs
  end.

(** The image sink: rasterize, encode to the format of the destination,
    write. *)
Definition write_image (E : stages) (c : ImageConfig) (g : GlyphGrid E)
           (fs : gmap jsstring bytes) : failure + gmap jsstring bytes :=
  match output_image_path c with
  | JSstr p =>
      match rasterize E g (font_size c) with
      | None => inl UnsupportedFont
      | Some canvas =>
          match encode E canvas p with
          | None => inl UnsupportedOutputFormat
          | Some b => inr (<[p := b]> fs)
          end
      end
  | _ => inr fs
  end.

(** One run of [process_image] on the files [fs]: its answer, and the
    files it leaves. *)
Definition run (E : stages) (c : ImageConfig) (fs : gmap jsstring bytes)
  : (failure + unit) * gmap jsstring bytes :=
  if negb (config_ok c) then (inl InvalidConfig, fs)
  else
    match decode E (image_path c) with
    | None => (inl DecodeError, fs)
    | Some frame =>
        match sample E frame (scale_down c) (height_sample_scale c)
                (invert c) with
        | None => (inl InvalidDimensions, fs)
        | Some grid =>
            if negb (forallb (may_write (overwrite c) fs) (requested c))
            then (inl OutputExists, fs)
            else
              let fs1 := write_text E c grid fs in
              match write_image E c grid fs1 with
              | inl e => (inl e, fs1)
              | inr fs2 => (inr tt, fs2)
              end
        end
    end.

End ImagePipeline.

(* ===================================================================== *)
(** * Part II: vocabulary of the statements *)
(* ===================================================================== *)

(** ** Rounding *)

(** Where the bits dropped by a shift of [n] places stand, [r] being
    their value: nothing lost, or below, at or above the half. *)
Definition loc_of_rem (r n : Z) : location :=
  if r =? 0 then loc_Exact else loc_Inexact (2 * r ?= 2 ^ n).

(** [w / 2 ^ n] rounded to the nearest integer, ties to even. *)
Definition rne (w n : Z) : Z :=
  round_nearest_even (w / 2 ^ n) (loc_of_rem (w mod 2 ^ n) n).

(** The number of sign [s] whose rounded mantissa is [M <= 2 ^ prec] at
    the exponent [E]. *)
Definition rounded (s : bool) (M E : Z) : number :=
  if M =? 0 then S754_zero s
  else if M =? 2 ^ prec then S754_finite s (Z.to_pos (2 ^ (prec - 1))) (E + 1)
  else S754_finite s (Z.to_pos M) E.

(** The value of a non-negative number, in units of [2 ^ -1074]. *)
Definition Zval (x : number) : Z :=
  match x with
  | S754_finite false m e => Zpos m * 2 ^ (e + 1074)
  | _ => 0
  end.

(** The mantissa of the number 100, whose exponent is -46. *)
Definition hundred_m : Z := 7036874417766400.

(** The integer part of the product by 100, rounded to a number, of the
    number of value [v * 2 ^ -1074]. *)
Definition scaled_floor (v : Z) : Z :=
  let w := v * hundred_m in
  let E := fexp prec emax (Zdigits2 w - 1120) in
  rne w (E + 1120) / 2 ^ (- E).

(** The payloads of the feed: the numbers of the interval [0, 1]. *)
Definition in_unit (x : number) : Prop :=
  valid x /\ leb pos_zero x = true /\ leb x (of_Z 1) = true.

(** The integer the bar shows for a payload of the interval [0, 1]. *)
Definition percent (p : number) : Z :=
  match p with
  | S754_finite false _ _ => scaled_floor (Zval p)
  | _ => 0
  end.

Definition small_ok (a : Z) : bool :=
  sf_eqb (Math_min (of_Z 100) (of_Z a)) (of_Z a)
  && forallb (fun b => Bool.eqb (leb (of_Z a) (of_Z b)) (a <=? b))
       (map Z.of_nat (seq 0 101)).

(** [x > 0], or [x] is NaN: what [x <= 0] being false amounts to. *)
Definition positive_or_nan (x : number) : Prop :=
  gtb x pos_zero = true \/ x = NaN.

(** The values of [rotate] that the form offers. *)
Definition rotate_allowed (r : number) : Prop :=
  r = of_Z (-1) \/ r = pos_zero \/ r = neg_zero \/ r = of_Z 1 \/ r = of_Z 2.

(** A feed that never goes down. *)
Definition non_decreasing (l : list number) : Prop :=
  Sorted (fun x y => leb x y = true) l.

(** Values of which none is above a later one. *)
Definition never_decreases (l : list number) : Prop :=
  StronglySorted (fun x y => leb x y = true) l.

(** ** Sample inputs *)

(** A configuration whose text output is one space. *)
Definition blank_output_config : image.ImageConfig := {|
  image.image_path := lit "a.png";
  image.scale_down := of_Z 1;
  image.font_size := of_Z 12;
  image.height_sample_scale := of_decimal 2046 (-3);
  image.invert := false;
  image.output_file_path := JSstr (lit " ");
  image.output_image_path := JSnull;
  image.overwrite := false
|}.


(** A video configuration whose output path is one space. *)
Definition blank_video_config : video.VideoConfig := {|
  video.video_path := lit "a.mp4";
  video.output_video_path := JSstr (lit " ");
  video.scale_down := of_Z 1;
  video.font_size := of_Z 12;
  video.height_sample_scale := of_decimal 2046 (-3);
  video.max_fps := of_Z 10;
  video.use_max_fps_for_output_video := false;
  video.rotate := of_Z (-1);
  video.invert := false;
  video.overwrite := false
|}.

(** The text [{"image_path":null}]. *)
Definition stored_null_path : jsstring :=
  [123; 34]%N ++ lit "image_path" ++ [34; 58]%N ++ lit "null" ++ [125]%N.

(** The text [{"scale_down":4}]. *)
Definition stored_scale_only : jsstring :=
  [123; 34]%N ++ lit "scale_down" ++ [34; 58]%N ++ lit "4" ++ [125]%N.

(** A feed of three payloads: 0.29, 0.5 and 1. *)
Definition sample_feed : list number :=
  [of_decimal 29 (-2); of_decimal 5 (-1); of_Z 1].

(** The state of the video panel when it is mounted. *)
Definition mounted_state : VideoPanel.state := {|
  VideoPanel.progress := of_Z 0;
  VideoPanel.status := idle;
  VideoPanel.statusDetail := lit "Waiting to start";
  VideoPanel.processError := JSnull;
  VideoPanel.processing := false;
  VideoPanel.outputPath := JSnull;
  VideoPanel.startedAt := None;
  VideoPanel.progressWatcherRunning := false
|}.

(** A bar value of the interval [0, 100]. *)
Definition within_bar (v : number) : Prop :=
  leb pos_zero v = true /\ leb v (of_Z 100) = true.

(** The separator [sep] twice in a row, right before the file name. *)
Definition doubled_before_name (sep : N) (out : jsstring) : Prop :=
  exists pre, out = pre ++ [sep; sep] ++ lit "output.mp4".

(** A directory string that ends with the separator twice. *)
Definition ends_doubled (sep : N) (dir : jsstring) : Prop :=
  exists pre, dir = pre ++ [sep; sep].

(** ** Vocabulary of the further properties *)

(** A string that neither starts nor ends with white space. *)
Definition no_outer_space (s : jsstring) : Prop :=
  match s with c :: _ => is_white_space c = false | [] => True end /\
  match rev s with c :: _ => is_white_space c = false | [] => True end.

(** An output field that holds no path: [undefined], [null], or a string
    of white space only. *)
Definition blank (p : opt_string) : Prop :=
  match p with
  | JSstr s => trim s = []
  | _ => True
  end.

(** A path as the payloads carry it: [null], or a string that is not
    empty and has no white space around it. *)
Definition normal_path (p : opt_string) : Prop :=
  match p with
  | JSundefined => False
  | JSnull => True
  | JSstr s => s <> [] /\ no_outer_space s
  end.

(** A video configuration to pick an output folder for. *)
Definition sample_video_config : video.VideoConfig := {|
  video.video_path := lit "a.mp4";
  video.output_video_path := JSnull;
  video.scale_down := of_Z 1;
  video.font_size := of_Z 12;
  video.height_sample_scale := of_decimal 2046 (-3);
  video.max_fps := of_Z 10;
  video.use_max_fps_for_output_video := false;
  video.rotate := of_Z (-1);
  video.invert := false;
  video.overwrite := false
|}.

(** A video configuration that the validation accepts; its output path
    has white space around it. *)
Definition accepted_video_config : video.VideoConfig := {|
  video.video_path := lit "a.mp4";
  video.output_video_path := JSstr (lit " /tmp/out.mp4 ");
  video.scale_down := of_Z 1;
  video.font_size := of_Z 12;
  video.height_sample_scale := of_decimal 2046 (-3);
  video.max_fps := of_Z 10;
  video.use_max_fps_for_output_video := false;
  video.rotate := of_Z (-1);
  video.invert := false;
  video.overwrite := false
|}.

(** The state of the video panel while a run is in progress. *)
Definition running_state : VideoPanel.state :=
  VideoPanel.processVideo_begin (of_Z 1700000000000) mounted_state.

(** Where a fraction [r / d] of one unit stands: nothing, or below, at
    or above the half. *)
Definition loc_of_frac (r d : Z) : location :=
  if r =? 0 then loc_Exact else loc_Inexact (2 * r ?= d).

(** The quotient [W / D] rounded to the nearest integer, ties to even. *)
Definition rneq (W D : Z) : Z :=
  round_nearest_even (W / D) (loc_of_frac (W mod D) D).

(** The video panel once it is mounted and rendered: nothing has
    started, and [elapsedText] has been read once. *)
Definition mounted_panel : VideoPanel.panel := {|
  VideoPanel.refs := mounted_state;
  VideoPanel.elapsed := Some None
|}.

(** The events that assign no new value to [startedAt], and among them
    those that do not read [elapsedText]. *)
Definition within_run (e : VideoPanel.event) : bool :=
  match e with
  | VideoPanel.Progressed _ | VideoPanel.Settled _ _
  | VideoPanel.Rendered _ => true
  | _ => false
  end.

Definition unread (e : VideoPanel.event) : bool :=
  match e with
  | VideoPanel.Progressed _ | VideoPanel.Settled _ _ => true
  | _ => false
  end.

(** The text for [d] milliseconds elapsed. *)
Definition elapsed_pieces (d : Z) : list VideoPanel.piece :=
  if d / 1000 <? 60
  then [VideoPanel.num (of_Z (d / 1000)); VideoPanel.text (lit "s elapsed")]
  else [VideoPanel.num (of_Z (d / 1000 / 60)); VideoPanel.text (lit "m ");
        VideoPanel.num (of_Z ((d / 1000) mod 60));
        VideoPanel.text (lit "s elapsed")].

(** A run seen by the panel after its first reading of [elapsedText]. *)
Definition sample_run : list VideoPanel.event :=
  [VideoPanel.Progressed (of_decimal 5 (-1));
   VideoPanel.Rendered (of_Z 1700000200000);
   VideoPanel.Settled Resolved accepted_video_config;
   VideoPanel.Rendered (of_Z 1700000300000)].



(** All the requested sinks are written, or none is. *)
Definition all_or_none (E : ImagePipeline.stages) (c : image.ImageConfig)
           (fs : gmap jsstring (list N)) : Prop :=
  let fs' := snd (ImagePipeline.run E c fs) in
  Forall (fun p => is_Some (fs' !! p)) (ImagePipeline.requested c)
  \/ Forall (fun p => fs' !! p = fs !! p) (ImagePipeline.requested c).

(** ** Proof steps *)


(* ===================================================================== *)
(** * Part III: properties *)
(* ===================================================================== *)

(** ** Rounding to nearest, ties to even *)

(** The iterator of [shr] runs its function [p] times. *)
Lemma iter_pos_nat {A} (f : A -> A) (p : positive) (x : A) :
  SpecFloat.iter_pos f p x = Nat.iter (Pos.to_nat p) f x.
Proof.
  revert x; induction p as [p IH|p IH|]; intros x; simpl SpecFloat.iter_pos.
  - rewrite !IH, Pos2Nat.inj_xI, <- Nat.iter_add, <- Nat.iter_succ_r.
    f_equal; lia.
  - rewrite !IH, Pos2Nat.inj_xO, <- Nat.iter_add. f_equal; lia.
  - reflexivity.
Qed.

(** One more bit shifted out: the quotient is halved and the remainder
    gains the bit that leaves. *)
Lemma divmod_step w k :
  0 <= w -> 0 <= k ->
  w / 2 ^ (k + 1) = (w / 2 ^ k) / 2 /\
  w mod 2 ^ (k + 1) = w mod 2 ^ k + 2 ^ k * ((w / 2 ^ k) mod 2).
Proof.
  intros Hw Hk.
  assert (Ha : 0 < 2 ^ k) by (apply Z.pow_pos_nonneg; lia).
  rewrite Z.pow_add_r, Z.pow_1_r by lia.
  pose proof (Z.div_mod w (2 ^ k) ltac:(lia)) as E1.
  pose proof (Z.mod_pos_bound w (2 ^ k) Ha) as B1.
  pose proof (Z.div_mod (w / 2 ^ k) 2 ltac:(lia)) as E2.
  pose proof (Z.mod_pos_bound (w / 2 ^ k) 2 ltac:(lia)) as B2.
  set (m := w / 2 ^ k) in *. set (r := w mod 2 ^ k) in *.
  set (m' := m / 2) in *. set (b := m mod 2) in *. set (a := 2 ^ k) in *.
  assert (E : w = (a * 2) * m' + (r + a * b)) by nia.
  assert (B : 0 <= r + a * b < a * 2) by nia.
  split.
  - symmetry. apply (Z.div_unique w (a * 2) m' (r + a * b)); [lia | exact E].
  - symmetry. apply (Z.mod_unique w (a * 2) m' (r + a * b)); [lia | exact E].
Qed.

(** [shr_1] keeps the record in step with the quotient and with the
    position of the remainder. *)
Lemma shr_1_spec w k rec :
  0 <= w -> 0 <= k ->
  shr_m rec = w / 2 ^ k ->
  loc_of_shr_record rec = loc_of_rem (w mod 2 ^ k) k ->
  shr_m (shr_1 rec) = w / 2 ^ (k + 1) /\
  loc_of_shr_record (shr_1 rec) = loc_of_rem (w mod 2 ^ (k + 1)) (k + 1).
Proof.
  intros Hw Hk Hm Hl.
  destruct (divmod_step w k Hw Hk) as [Ed Er].
  assert (Ha : 0 < 2 ^ k) by (apply Z.pow_pos_nonneg; lia).
  pose proof (Z.mod_pos_bound w (2 ^ k) Ha) as B1.
  assert (Hq : 0 <= w / 2 ^ k) by (apply Z.div_pos; lia).
  rewrite Ed, Er, <- Hm. clear Ed Er.
  assert (Hp2 : 2 ^ (k + 1) = 2 * 2 ^ k) by (rewrite Z.pow_add_r, Z.pow_1_r; lia).
  unfold loc_of_rem in *. rewrite Hp2.
  set (r := w mod 2 ^ k) in *. set (a := 2 ^ k) in *.
  destruct rec as [m rb sb]; simpl shr_m in *.
  rewrite <- Hm in Hq.
  assert (Hs : (rb || sb) = negb (r =? 0)).
  { destruct (Z.eqb_spec r 0) as [E0|N0]; destruct rb, sb; simpl in Hl |- *;
      try reflexivity; try discriminate. }
  destruct m as [|[p|p|]|p]; try lia; simpl shr_1; rewrite Hs; simpl shr_m.
  - (* 0 *)
    split; [reflexivity|].
    change (0 mod 2) with 0. rewrite Z.mul_0_r, Z.add_0_r.
    destruct (Z.eqb_spec r 0); cbn [loc_of_shr_record negb]; [reflexivity|].
    f_equal. symmetry. apply Z.compare_lt_iff. lia.
  - (* xI *)
    split; [rewrite Pos2Z.inj_xI; apply (Z.div_unique _ 2 _ 1); lia|].
    replace (Z.pos p~1 mod 2) with 1
      by (rewrite Pos2Z.inj_xI; apply (Z.mod_unique _ 2 (Z.pos p) 1); lia).
    destruct (Z.eqb_spec r 0) as [E0|N0]; cbn [loc_of_shr_record negb].
    + rewrite E0. replace (0 + a * 1 =? 0) with false by (symmetry; apply Z.eqb_neq; lia).
      f_equal. symmetry. apply Z.compare_eq_iff. lia.
    + replace (r + a * 1 =? 0) with false by (symmetry; apply Z.eqb_neq; lia).
      f_equal. symmetry. apply Z.compare_gt_iff. lia.
  - (* xO *)
    split; [rewrite Pos2Z.inj_xO; apply (Z.div_unique _ 2 _ 0); lia|].
    replace (Z.pos p~0 mod 2) with 0
      by (rewrite Pos2Z.inj_xO; apply (Z.mod_unique _ 2 (Z.pos p) 0); lia).
    rewrite Z.mul_0_r, Z.add_0_r.
    destruct (Z.eqb_spec r 0); cbn [loc_of_shr_record negb]; [reflexivity|].
    f_equal. symmetry. apply Z.compare_lt_iff. lia.
  - (* 1 *)
    split; [reflexivity|].
    change (1 mod 2) with 1.
    destruct (Z.eqb_spec r 0) as [E0|N0]; cbn [loc_of_shr_record negb].
    + rewrite E0. replace (0 + a * 1 =? 0) with false by (symmetry; apply Z.eqb_neq; lia).
      f_equal. symmetry. apply Z.compare_eq_iff. lia.
    + replace (r + a * 1 =? 0) with false by (symmetry; apply Z.eqb_neq; lia).
      f_equal. symmetry. apply Z.compare_gt_iff. lia.
Qed.

(** After [k] steps the record holds [w / 2 ^ k] and tells where
    [w mod 2 ^ k] stands. *)
Lemma shr_iter_spec w (k : nat) :
  0 <= w ->
  let rec := Nat.iter k shr_1 (Build_shr_record w false false) in
  shr_m rec = w / 2 ^ Z.of_nat k /\
  loc_of_shr_record rec = loc_of_rem (w mod 2 ^ Z.of_nat k) (Z.of_nat k).
Proof.
  intros Hw. induction k as [|k IH].
  - simpl. rewrite Z.div_1_r, Z.mod_1_r. split; reflexivity.
  - cbn zeta in *. rewrite Nat2Z.inj_succ, <- Z.add_1_r. simpl Nat.iter.
    destruct IH as [IH1 IH2]. apply shr_1_spec; auto; lia.
Qed.

(** What [shr] returns for an exact mantissa [w]. *)
Lemma shr_spec w e n :
  0 <= w ->
  let res := shr (Build_shr_record w false false) e n in
  shr_m (fst res) = w / 2 ^ Z.max n 0 /\
  loc_of_shr_record (fst res) = loc_of_rem (w mod 2 ^ Z.max n 0) (Z.max n 0) /\
  snd res = e + Z.max n 0.
Proof.
  intros Hw. destruct n as [|p|p]; cbn [shr fst snd Z.max Z.compare].
  - rewrite Z.div_1_r, Z.mod_1_r, Z.add_0_r. repeat split.
  - change (Z.max (Z.pos p) 0) with (Z.pos p).
    rewrite iter_pos_nat.
    destruct (shr_iter_spec w (Pos.to_nat p) Hw) as [H1 H2].
    rewrite positive_nat_Z in H1, H2. auto.
  - change (Z.max (Z.neg p) 0) with 0.
    rewrite Z.div_1_r, Z.mod_1_r, Z.add_0_r. repeat split.
Qed.

(** The number of binary digits is the size of the positive. *)
Lemma digits2_pos_size p : digits2_pos p = Pos.size p.
Proof. induction p; simpl; congruence. Qed.

(** A positive [w] lies between the powers of two that its number of
    digits names. *)
Lemma Zdigits2_bounds w :
  0 < w -> 1 <= Zdigits2 w /\ 2 ^ (Zdigits2 w - 1) <= w < 2 ^ Zdigits2 w.
Proof.
  intros Hw. destruct w as [|p|p]; try lia. cbn [Zdigits2].
  rewrite digits2_pos_size. split; [lia|].
  pose proof (Pos.size_gt p) as G. pose proof (Pos.size_le p) as L.
  apply Pos2Z.pos_lt_pos in G. apply Pos2Z.pos_le_pos in L.
  rewrite Pos2Z.inj_pow in G, L.
  change (Z.pos p~0) with (2 * Z.pos p) in L.
  split; [|exact G].
  replace (Z.pos (Pos.size p)) with (Z.pos (Pos.size p) - 1 + 1) in L by lia.
  rewrite Z.pow_add_r, Z.pow_1_r in L by lia. lia.
Qed.

Lemma Zdigits2_unique w d :
  0 < w -> 2 ^ (d - 1) <= w < 2 ^ d -> Zdigits2 w = d.
Proof.
  intros Hw [L U]. destruct (Zdigits2_bounds w Hw) as [H1 [L' U']].
  assert (0 <= d).
  { destruct (Z.le_gt_cases 0 d); auto. rewrite (Z.pow_neg_r 2 d) in U by lia. lia. }
  assert (d - 1 < Zdigits2 w).
  { apply (Z.pow_lt_mono_r_iff 2); lia. }
  assert (Zdigits2 w - 1 < d).
  { apply (Z.pow_lt_mono_r_iff 2); lia. }
  lia.
Qed.

(** The rounded quotient is the quotient or the next integer. *)
Lemma rne_bounds w n :
  0 <= w -> 0 <= n -> w / 2 ^ n <= rne w n <= w / 2 ^ n + 1.
Proof.
  intros Hw Hn. unfold rne, loc_of_rem, round_nearest_even.
  destruct (w mod 2 ^ n =? 0); [lia|].
  destruct (2 * (w mod 2 ^ n) ?= 2 ^ n); try lia.
  destruct (Z.even (w / 2 ^ n)); lia.
Qed.

(** A multiple of [2 ^ n] rounds to its exact quotient. *)
Lemma rne_exact q n : 0 <= n -> rne (q * 2 ^ n) n = q.
Proof.
  intros Hn. assert (0 < 2 ^ n) by (apply Z.pow_pos_nonneg; lia).
  unfold rne, loc_of_rem. rewrite Z.mod_mul, Z.div_mul by lia. reflexivity.
Qed.

(** The rounded quotient, by the position of the remainder. *)
Lemma rne_cases w n :
  0 <= w -> 0 <= n ->
  let q := w / 2 ^ n in let r := w mod 2 ^ n in
  (2 * r < 2 ^ n /\ rne w n = q) \/
  (2 * r = 2 ^ n /\ rne w n = q + (q mod 2)) \/
  (2 * r > 2 ^ n /\ rne w n = q + 1).
Proof.
  intros Hw Hn q r. unfold rne, loc_of_rem, round_nearest_even. fold q r.
  assert (0 < 2 ^ n) by (apply Z.pow_pos_nonneg; lia).
  destruct (Z.eqb_spec r 0) as [E|E]; [left; split; [lia|reflexivity]|].
  destruct (Z.compare_spec (2 * r) (2 ^ n)) as [C|C|C].
  - right; left; split; [exact C|].
    rewrite Zmod_even. destruct (Z.even q); lia.
  - left; split; [lia|reflexivity].
  - right; right; split; [lia|reflexivity].
Qed.

(** Rounding to nearest is monotone. *)
Lemma rne_mono w1 w2 n :
  0 <= w1 -> w1 <= w2 -> 0 <= n -> rne w1 n <= rne w2 n.
Proof.
  intros H1 H12 Hn.
  assert (Ha : 0 < 2 ^ n) by (apply Z.pow_pos_nonneg; lia).
  pose proof (Z.div_mod w1 (2 ^ n) ltac:(lia)) as E1.
  pose proof (Z.div_mod w2 (2 ^ n) ltac:(lia)) as E2.
  pose proof (Z.mod_pos_bound w1 (2 ^ n) Ha) as B1.
  pose proof (Z.mod_pos_bound w2 (2 ^ n) Ha) as B2.
  pose proof (Z.mod_pos_bound (w1 / 2 ^ n) 2 ltac:(lia)) as P1.
  pose proof (Z.mod_pos_bound (w2 / 2 ^ n) 2 ltac:(lia)) as P2.
  assert (Hq : w1 / 2 ^ n <= w2 / 2 ^ n) by (apply Z.div_le_mono; lia).
  destruct (rne_cases w1 n ltac:(lia) Hn) as [[C1 R1]|[[C1 R1]|[C1 R1]]];
  destruct (rne_cases w2 n ltac:(lia) Hn) as [[C2 R2]|[[C2 R2]|[C2 R2]]];
  rewrite R1, R2; clear R1 R2;
  set (q1 := w1 / 2 ^ n) in *; set (q2 := w2 / 2 ^ n) in *;
  set (r1 := w1 mod 2 ^ n) in *; set (r2 := w2 mod 2 ^ n) in *;
  set (a := 2 ^ n) in *;
  destruct (Z.eq_dec q1 q2) as [Eq|Nq]; try rewrite Eq in *; try nia; try lia.
Qed.

(** Rounding depends on the value only, not on how far the mantissa is
    shifted. *)
Lemma rne_shift w n k :
  0 <= w -> 0 <= n -> 0 <= k -> rne (w * 2 ^ k) (n + k) = rne w n.
Proof.
  intros Hw Hn Hk. unfold rne, loc_of_rem.
  assert (Ha : 0 < 2 ^ n) by (apply Z.pow_pos_nonneg; lia).
  assert (Hb : 0 < 2 ^ k) by (apply Z.pow_pos_nonneg; lia).
  rewrite Z.pow_add_r by lia.
  rewrite Z.div_mul_cancel_r by lia.
  rewrite Zmult_mod_distr_r.
  set (r := w mod 2 ^ n). 
  replace (r * 2 ^ k =? 0) with (r =? 0).
  2:{ destruct (Z.eqb_spec r 0), (Z.eqb_spec (r * 2 ^ k) 0); try reflexivity; nia. }
  replace (2 * (r * 2 ^ k) ?= 2 ^ n * 2 ^ k) with (2 * r ?= 2 ^ n); [reflexivity|].
  destruct (Z.compare_spec (2 * r) (2 ^ n)), (Z.compare_spec (2 * (r * 2 ^ k)) (2 ^ n * 2 ^ k));
    try reflexivity; nia.
Qed.

Lemma fexp_ge_emin x : emin prec emax <= fexp prec emax x.
Proof. unfold fexp. lia. Qed.

(** [binary_round_aux] on an exact mantissa, when the exponent does not
    overflow: the mantissa is rounded to nearest at the exponent that
    [fexp] gives, and a mantissa that reaches [2 ^ prec] moves up one
    exponent. *)
Lemma binary_round_aux_exact s w e :
  0 < w ->
  let E := fexp prec emax (Zdigits2 w + e) in
  e <= E -> E + 1 <= emax - prec ->
  binary_round_aux prec emax s w e loc_Exact = rounded s (rne w (E - e)) E.
Proof.
  intros Hw E HeE Hov.
  destruct (Zdigits2_bounds w Hw) as [Hd1 [HdL HdU]].
  set (n := E - e). assert (Hn : 0 <= n) by (unfold n; lia).
  assert (Ha : 0 < 2 ^ n) by (apply Z.pow_pos_nonneg; lia).
  (* the quotient has at most [prec] digits *)
  assert (Hq : w / 2 ^ n < 2 ^ prec).
  { apply Z.div_lt_upper_bound; [lia|].
    rewrite <- Z.pow_add_r by (unfold prec; lia).
    eapply Z.lt_le_trans; [exact HdU|].
    apply Z.pow_le_mono_r; [lia|].
    unfold n, E, fexp. lia. }
  pose proof (rne_bounds w n ltac:(lia) Hn) as HM.
  assert (Hq0 : 0 <= w / 2 ^ n) by (apply Z.div_pos; lia).
  unfold binary_round_aux.
  unfold shr_fexp at 1. cbn [shr_record_of_loc]. fold E. fold n.
  destruct (shr_spec w e n ltac:(lia)) as (S1 & S2 & S3).
  rewrite Z.max_l in S1, S2, S3 by lia.
  destruct (shr {| shr_m := w; shr_r := false; shr_s := false |} e n) as [mrs' e'].
  cbn [fst snd] in S1, S2, S3. subst e'. replace (e + n) with E by (unfold n; lia).
  cbv beta iota.
  rewrite S1, S2. fold (rne w n).
  set (M := rne w n) in *.
  unfold rounded.
  pose proof (fexp_ge_emin (Zdigits2 w + e)) as HEmin. fold E in HEmin.
  destruct (Z.eqb_spec M 0) as [M0|M0].
  - rewrite M0. unfold shr_fexp. cbn [Zdigits2 shr_record_of_loc].
    rewrite Z.add_0_l.
    assert (Hsh : fexp prec emax E - E <= 0) by (unfold fexp, prec in *; lia).
    destruct (fexp prec emax E - E) as [|p|p]; try lia; reflexivity.
  - assert (HMpos : 0 < M) by lia.
    destruct (Zdigits2_bounds M HMpos) as [HD1 [HDL HDU]].
    destruct (Z.eqb_spec M (2 ^ prec)) as [Mp|Mp].
    + rewrite Mp. unfold shr_fexp.
      replace (Zdigits2 (2 ^ prec)) with (prec + 1) by reflexivity.
      replace (fexp prec emax (prec + 1 + E) - E) with 1
        by (unfold fexp, prec in *; lia).
      change (2 ^ prec) with 9007199254740992.
      change (2 ^ (prec - 1)) with 4503599627370496.
      cbn [shr_record_of_loc shr SpecFloat.iter_pos shr_1 shr_m fst snd Z.to_pos].
      destruct (Z.leb_spec (E + 1) (emax - prec)); [reflexivity | lia].
    + assert (HMlt : M < 2 ^ prec) by lia.
      assert (HD : Zdigits2 M <= prec).
      { destruct (Z.le_gt_cases (Zdigits2 M) prec); auto.
        assert (2 ^ prec <= 2 ^ (Zdigits2 M - 1)) by (apply Z.pow_le_mono_r; lia).
        lia. }
      unfold shr_fexp.
      assert (Hsh : fexp prec emax (Zdigits2 M + E) - E <= 0)
        by (unfold fexp, prec in *; lia).
      cbn [shr_record_of_loc].
      destruct (fexp prec emax (Zdigits2 M + E) - E) as [|p|p]; try lia;
        cbn [shr shr_m fst snd];
        (destruct M as [|pm|pm]; try lia);
        (destruct (Z.leb_spec E (emax - prec)); [reflexivity | lia]).
Qed.

Lemma pow2_pos n : 0 <= n -> 0 < 2 ^ n.
Proof. intros; apply Z.pow_pos_nonneg; lia. Qed.

Lemma compare_cont_le m1 m2 :
  Pos.compare_cont Eq m1 m2 <> Gt -> Z.pos m1 <= Z.pos m2.
Proof.
  change (Pos.compare_cont Eq m1 m2) with (Pos.compare m1 m2).
  destruct (Pos.compare_spec m1 m2); intros Hc; try lia. congruence.
Qed.

(** A finite number in canonical form: its exponent is in range, its
    mantissa is below [2 ^ 53], and above [2 ^ 52] unless the number is
    subnormal. *)
Lemma valid_finite_inv s m e :
  valid (S754_finite s m e) ->
  -1074 <= e <= 971 /\ Zpos m < 2 ^ 53 /\ (-1074 < e -> 2 ^ 52 <= Zpos m).
Proof.
  unfold valid, valid_binary, bounded, canonical_mantissa.
  intros H. apply andb_prop in H. destruct H as [H1 H2].
  apply Z.eqb_eq in H1. apply Z.leb_le in H2.
  change (Z.pos (digits2_pos m)) with (Zdigits2 (Z.pos m)) in H1.
  destruct (Zdigits2_bounds (Z.pos m) ltac:(lia)) as [D1 [DL DU]].
  unfold fexp, emin, emax, prec in *.
  assert (HD : Zdigits2 (Z.pos m) <= 53) by lia.
  assert (Hp : 2 ^ Zdigits2 (Z.pos m) <= 2 ^ 53) by (apply Z.pow_le_mono_r; lia).
  split; [lia|]. split; [lia|].
  intros He. replace (Zdigits2 (Z.pos m)) with 53 in DL by lia. exact DL.
Qed.

(** A number of the interval [0, 1] is a zero or a positive finite number
    of value at most 1. *)
Lemma in_unit_inv x :
  in_unit x ->
  (exists s, x = S754_zero s) \/
  (exists m e, x = S754_finite false m e /\ -1074 <= e <= -52 /\
               Zpos m < 2 ^ 53 /\ (-1074 < e -> 2 ^ 52 <= Zpos m) /\
               Zval x <= 2 ^ 1074).
Proof.
  intros (V & H0 & H1).
  destruct x as [s|s| |s m e]; try discriminate.
  - left; eauto.
  - destruct s; discriminate.
  - destruct s; [discriminate|]. right. exists m, e. split; [reflexivity|].
    apply valid_finite_inv in V. destruct V as (Ex & Mx & Nx).
    change (of_Z 1) with (S754_finite false 4503599627370496 (-52)) in H1.
    unfold leb, SFleb, SFcompare in H1.
    cbn [Zval].
    destruct (Z.compare_spec e (-52)) as [C|C|C]; try discriminate.
    + subst e. 
      assert (Z.pos m <= 4503599627370496).
      { apply compare_cont_le. destruct (Pos.compare_cont Eq m 4503599627370496); discriminate. }
      repeat split; lia.
    + repeat split; try lia.
      assert (Hs : 2 ^ 1074 = 2 ^ (e + 1074) * 2 ^ (- e))
        by (rewrite <- Z.pow_add_r by lia; f_equal; lia).
      rewrite Hs.
      pose proof (pow2_pos (e + 1074) ltac:(lia)).
      assert (2 ^ 53 <= 2 ^ (- e)) by (apply Z.pow_le_mono_r; lia).
      nia.
Qed.

(** On the interval [0, 1] the order of numbers is the order of their
    values. *)
Lemma Zval_mono x y :
  in_unit x -> in_unit y -> leb x y = true -> Zval x <= Zval y.
Proof.
  intros Ux Uy Hxy.
  destruct (in_unit_inv x Ux) as [[sx ->]|(mx & ex & -> & Ex & Mx & Nx & _)];
  destruct (in_unit_inv y Uy) as [[sy ->]|(my & ey & -> & Ey & My & Ny & _)];
  cbn [Zval]; try lia.
  - discriminate.
  - unfold leb, SFleb, SFcompare in Hxy.
    destruct (Z.compare_spec ex ey) as [C|C|C]; try discriminate.
    + subst ey.
      assert (Z.pos mx <= Z.pos my).
      { apply compare_cont_le. destruct (Pos.compare_cont Eq mx my); discriminate. }
      pose proof (pow2_pos (ex + 1074)). nia.
    + specialize (Ny ltac:(lia)).
      replace (ey + 1074) with ((ex + 1074) + (ey - ex)) by lia.
      rewrite (Z.pow_add_r 2 (ex + 1074) (ey - ex)) by lia.
      pose proof (pow2_pos (ex + 1074) ltac:(lia)).
      assert (2 <= 2 ^ (ey - ex)).
      { change 2 with (2 ^ 1) at 1. apply Z.pow_le_mono_r; lia. }
      change (2 ^ 53) with (2 * 2 ^ 52) in Mx.
      set (a := 2 ^ (ex + 1074)) in *. set (t := 2 ^ (ey - ex)) in *.
      set (h := 2 ^ 52) in *.
      assert (Z.pos mx * a <= 2 * h * a) by nia.
      assert (h * (a * 2) <= Z.pos my * (a * t)).
      { apply Z.mul_le_mono_nonneg; nia. }
      lia.
Qed.

Lemma Zdigits2_mono a b : 0 < a -> a <= b -> Zdigits2 a <= Zdigits2 b.
Proof.
  intros Ha Hab.
  destruct (Zdigits2_bounds a Ha) as (A1 & AL & AU).
  destruct (Zdigits2_bounds b ltac:(lia)) as (B1 & BL & BU).
  assert (Zdigits2 a - 1 < Zdigits2 b) by (apply (Z.pow_lt_mono_r_iff 2); lia).
  lia.
Qed.

Lemma Zdigits2_shift w k :
  0 < w -> 0 <= k -> Zdigits2 (w * 2 ^ k) = Zdigits2 w + k.
Proof.
  intros Hw Hk. destruct (Zdigits2_bounds w Hw) as (D1 & DL & DU).
  pose proof (pow2_pos k Hk).
  apply Zdigits2_unique; [nia|].
  replace (Zdigits2 w + k - 1) with (Zdigits2 w - 1 + k) by lia.
  rewrite !Z.pow_add_r by lia. nia.
Qed.

Lemma Zdigits2_ge w d : 0 <= d -> 2 ^ d <= w -> d + 1 <= Zdigits2 w.
Proof.
  intros Hd Hw. pose proof (pow2_pos d Hd).
  destruct (Zdigits2_bounds w ltac:(lia)) as (D1 & DL & DU).
  assert (d < Zdigits2 w) by (apply (Z.pow_lt_mono_r_iff 2); lia). lia.
Qed.

Lemma Zdigits2_le w d : 0 < w -> 0 <= d -> w < 2 ^ d -> Zdigits2 w <= d.
Proof.
  intros Hw Hd Hlt.
  destruct (Zdigits2_bounds w ltac:(lia)) as (D1 & DL & DU).
  assert (Zdigits2 w - 1 < d) by (apply (Z.pow_lt_mono_r_iff 2); lia). lia.
Qed.

Lemma hundred_m_bounds : 2 ^ 52 <= hundred_m < 2 ^ 53.
Proof. unfold hundred_m. split; [apply Z.leb_le | apply Z.ltb_lt]; reflexivity. Qed.

(** The rounded mantissa of a product is at most [2 ^ prec]. *)
Lemma rne_upper w n :
  0 < w -> 0 <= n -> Zdigits2 w - prec <= n -> rne w n <= 2 ^ prec.
Proof.
  intros Hw Hn Hd.
  destruct (Zdigits2_bounds w Hw) as (D1 & DL & DU).
  pose proof (rne_bounds w n ltac:(lia) Hn).
  assert (w / 2 ^ n < 2 ^ prec); [|lia].
  apply Z.div_lt_upper_bound; [apply pow2_pos; lia|].
  rewrite <- Z.pow_add_r by (unfold prec; lia).
  eapply Z.lt_le_trans; [exact DU|].
  apply Z.pow_le_mono_r; lia.
Qed.

Lemma rne_lower w n :
  0 < w -> 0 <= n -> n = Zdigits2 w - prec -> 2 ^ (prec - 1) <= rne w n.
Proof.
  intros Hw Hn Hd.
  destruct (Zdigits2_bounds w Hw) as (D1 & DL & DU).
  pose proof (rne_bounds w n ltac:(lia) Hn).
  assert (2 ^ (prec - 1) <= w / 2 ^ n); [|lia].
  apply Z.div_le_lower_bound; [apply pow2_pos; lia|].
  rewrite <- Z.pow_add_r by (unfold prec; lia).
  replace (n + (prec - 1)) with (Zdigits2 w - 1) by lia. exact DL.
Qed.

Lemma scaled_floor_exponent v :
  0 < v <= 2 ^ 1074 ->
  let w := v * hundred_m in
  let E := fexp prec emax (Zdigits2 w - 1120) in
  0 < w /\ 53 <= Zdigits2 w <= 1127 /\ -1074 <= E <= -46.
Proof.
  intros [Hv1 Hv2] w E.
  pose proof hundred_m_bounds as [HL HU].
  assert (Hw : 0 < w) by (unfold w; nia).
  assert (53 <= Zdigits2 w).
  { apply (Zdigits2_ge w 52); [lia|]. unfold w. nia. }
  assert (Zdigits2 w <= 1127).
  { apply Zdigits2_le; [lia|lia|].
    change (2 ^ 1127) with (2 ^ 1074 * 2 ^ 53). unfold w.
    pose proof (pow2_pos 1074 ltac:(lia)). nia. }
  split; [exact Hw|]. split; [lia|].
  unfold E, fexp, emin, emax, prec. lia.
Qed.

(** The integer part of the rounded product by 100 is monotone in the
    value. *)
Lemma scaled_floor_mono v1 v2 :
  0 < v1 -> v1 <= v2 -> v2 <= 2 ^ 1074 -> scaled_floor v1 <= scaled_floor v2.
Proof.
  intros H1 H12 H2.
  destruct (scaled_floor_exponent v1 ltac:(lia)) as (W1 & D1 & E1).
  destruct (scaled_floor_exponent v2 ltac:(lia)) as (W2 & D2 & E2).
  unfold scaled_floor.
  pose proof hundred_m_bounds as [HL HU].
  assert (Hw : v1 * hundred_m <= v2 * hundred_m) by nia.
  pose proof (Zdigits2_mono _ _ W1 Hw) as Hd.
  set (w1 := v1 * hundred_m) in *. set (w2 := v2 * hundred_m) in *.
  set (F1 := fexp prec emax (Zdigits2 w1 - 1120)) in *.
  set (F2 := fexp prec emax (Zdigits2 w2 - 1120)) in *.
  assert (HF : F1 <= F2) by (unfold F1, F2, fexp; lia).
  destruct (Z.eq_dec F1 F2) as [EF|NF].
  - rewrite EF. apply Z.div_le_mono; [apply pow2_pos; lia|].
    apply rne_mono; lia.
  - assert (HF2 : F2 = Zdigits2 w2 - 1120 - prec)
      by (unfold F1, F2, fexp, emin, emax, prec in *; lia).
    pose proof (rne_lower w2 (F2 + 1120) W2 ltac:(lia) ltac:(lia)) as L2.
    pose proof (rne_upper w1 (F1 + 1120) W1 ltac:(lia)
                  ltac:(unfold F1, fexp, prec; lia)) as U1.
    pose proof (rne_bounds w1 (F1 + 1120) ltac:(lia) ltac:(lia)) as B1.
    assert (0 <= w1 / 2 ^ (F1 + 1120)) by (apply Z.div_pos; [lia|apply pow2_pos; lia]).
    set (M1 := rne w1 (F1 + 1120)) in *. set (M2 := rne w2 (F2 + 1120)) in *.
    replace (- F1) with ((F2 - F1) + (- F2)) by lia.
    rewrite Z.pow_add_r by lia.
    rewrite <- Z.div_div by (try apply Z.pow_nonzero; try apply pow2_pos; lia).
    apply Z.div_le_mono; [apply pow2_pos; lia|].
    apply Z.le_trans with (2 ^ (prec - 1)); [|exact L2].
    apply Z.div_le_upper_bound; [apply pow2_pos; lia|].
    assert (2 <= 2 ^ (F2 - F1)).
    { change 2 with (2 ^ 1) at 1. apply Z.pow_le_mono_r; lia. }
    change (2 ^ prec) with (2 * 2 ^ (prec - 1)) in U1.
    pose proof (pow2_pos (prec - 1) ltac:(unfold prec; lia)). nia.
Qed.

(** The product of 1 by 100 is 100. *)
Lemma scaled_floor_one : scaled_floor (2 ^ 1074) = 100.
Proof. vm_compute. reflexivity. Qed.

Lemma scaled_floor_nonneg v : 0 < v <= 2 ^ 1074 -> 0 <= scaled_floor v.
Proof.
  intros Hv. destruct (scaled_floor_exponent v Hv) as (W & D & E).
  unfold scaled_floor. apply Z.div_pos; [|apply pow2_pos; lia].
  pose proof (rne_bounds (v * hundred_m) (fexp prec emax (Zdigits2 (v * hundred_m) - 1120) + 1120)
                ltac:(lia) ltac:(lia)) as B.
  assert (0 <= v * hundred_m / 2 ^ (fexp prec emax (Zdigits2 (v * hundred_m) - 1120) + 1120))
    by (apply Z.div_pos; [lia|apply pow2_pos; lia]).
  lia.
Qed.

Lemma of_Z_hundred : of_Z 100 = S754_finite false (Z.to_pos hundred_m) (-46).
Proof. reflexivity. Qed.

(** [Math.floor] of a rounded number below [2 ^ 52] is the integer
    quotient of its mantissa. *)
Lemma floor_rounded M E :
  0 <= M <= 2 ^ prec -> E + 1 < 0 ->
  Math_floor (rounded false M E) = of_Z (M / 2 ^ (- E)).
Proof.
  intros HM HE. unfold rounded.
  destruct (Z.eqb_spec M 0) as [M0|M0].
  - subst M. rewrite Z.div_0_l by (apply Z.pow_nonzero; lia). reflexivity.
  - destruct (Z.eqb_spec M (2 ^ prec)) as [Mp|Mp].
    + subst M. cbn [Math_floor].
      destruct (Z.leb_spec 0 (E + 1)); [lia|].
      cbn [cond_Zopp]. unfold of_Z. f_equal.
      rewrite Z.shiftr_div_pow2 by lia.
      rewrite Z2Pos.id by (apply pow2_pos; unfold prec; lia).
      replace (- E) with (1 + - (E + 1)) by lia.
      rewrite (Z.pow_add_r 2 1 (- (E + 1))) by lia.
      change (2 ^ prec) with (2 ^ 1 * 2 ^ (prec - 1)).
      rewrite Z.div_mul_cancel_l; [reflexivity| |lia].
      apply Z.pow_nonzero; lia.
    + cbn [Math_floor].
      destruct (Z.leb_spec 0 E); [lia|].
      cbn [cond_Zopp]. unfold of_Z. f_equal.
      rewrite Z.shiftr_div_pow2 by lia.
      rewrite Z2Pos.id by lia. reflexivity.
Qed.

(** [Math.floor(p * 100)] for a positive [p] of the interval [0, 1]. *)
Lemma mul_hundred_floor m e :
  in_unit (S754_finite false m e) ->
  Math_floor (mul (S754_finite false m e) (of_Z 100)) =
  of_Z (scaled_floor (Zval (S754_finite false m e))).
Proof.
  intros U.
  destruct (in_unit_inv _ U) as [[s Hs]|(m' & e' & Hx & He & Hm & Hn & Hv)];
    [discriminate|].
  inversion Hx; subst m' e'; clear Hx.
  cbn [Zval] in *.
  pose proof hundred_m_bounds as [HL HU].
  pose proof (pow2_pos (e + 1074) ltac:(lia)) as Hk.
  set (v := Z.pos m * 2 ^ (e + 1074)) in *.
  assert (Hv0 : 0 < v) by (unfold v; nia).
  destruct (scaled_floor_exponent v ltac:(lia)) as (W & D & E).
  rewrite of_Z_hundred. unfold mul, SFmul. cbn [xorb].
  rewrite Pos2Z.inj_mul, Z2Pos.id by (unfold hundred_m; lia).
  set (w := Z.pos m * hundred_m).
  assert (Hw : 0 < w) by (unfold w; nia).
  assert (Hvw : v * hundred_m = w * 2 ^ (e + 1074)) by (unfold v, w; ring).
  rewrite Hvw in W, D, E.
  rewrite Zdigits2_shift in D, E by lia.
  replace (Zdigits2 w + (e + 1074) - 1120) with (Zdigits2 w + (e + -46)) in E by lia.
  assert (Hdw : 53 <= Zdigits2 w).
  { apply (Zdigits2_ge w 52); [lia|]. unfold w. nia. }
  rewrite binary_round_aux_exact;
    [ | exact Hw | unfold fexp, prec in *; lia
      | unfold fexp, emin, emax, prec in *; lia ].
  set (F := fexp prec emax (Zdigits2 w + (e + -46))) in *.
  rewrite floor_rounded.
  - f_equal. unfold scaled_floor. fold v. rewrite Hvw.
    rewrite Zdigits2_shift by lia.
    replace (Zdigits2 w + (e + 1074) - 1120) with (Zdigits2 w + (e + -46)) by lia.
    fold F.
    replace (F + 1120) with ((F - (e + -46)) + (e + 1074)) by lia.
    rewrite rne_shift by (unfold F, fexp, prec in *; lia).
    reflexivity.
  - split.
    + pose proof (rne_bounds w (F - (e + -46)) ltac:(lia)
                    ltac:(unfold F, fexp, prec in *; lia)).
      assert (0 <= w / 2 ^ (F - (e + -46))).
      { apply Z.div_pos; [lia|apply pow2_pos; unfold F, fexp, prec in *; lia]. }
      lia.
    + apply rne_upper; [lia| |]; unfold F, fexp, prec in *; lia.
  - lia.
Qed.

Lemma sf_eqb_eq x y : sf_eqb x y = true -> x = y.
Proof.
  destruct x as [s|s| |s m e], y as [t|t| |t n f]; cbn; try discriminate;
    try reflexivity.
  - intros H; apply eqb_prop in H; congruence.
  - intros H; apply eqb_prop in H; congruence.
  - intros H. apply andb_prop in H. destruct H as [H H3].
    apply andb_prop in H. destruct H as [H1 H2].
    apply eqb_prop in H1. apply Pos.eqb_eq in H2. apply Z.eqb_eq in H3.
    congruence.
Qed.

Lemma range_forallb (P : Z -> bool) (n : nat) :
  forallb P (map Z.of_nat (seq 0 n)) = true ->
  forall k, 0 <= k < Z.of_nat n -> P k = true.
Proof.
  intros H k Hk. rewrite forallb_forall in H. apply H.
  rewrite <- (Z2Nat.id k) by lia. apply in_map. apply in_seq. lia.
Qed.

(** The integers from 0 to 100, as numbers: [Math.min(100, a)] is [a],
    and [a <= b] on numbers is [a <= b] on integers. *)
Lemma small_ok_all : forallb small_ok (map Z.of_nat (seq 0 101)) = true.
Proof. vm_compute. reflexivity. Qed.

Lemma min_of_Z_small a :
  0 <= a <= 100 -> Math_min (of_Z 100) (of_Z a) = of_Z a.
Proof.
  intros Ha. pose proof (range_forallb _ _ small_ok_all a ltac:(lia)) as H.
  apply andb_prop in H. destruct H as [H _]. apply sf_eqb_eq. exact H.
Qed.

Lemma leb_of_Z_small a b :
  0 <= a <= 100 -> 0 <= b <= 100 -> leb (of_Z a) (of_Z b) = (a <=? b).
Proof.
  intros Ha Hb. pose proof (range_forallb _ _ small_ok_all a ltac:(lia)) as H.
  apply andb_prop in H. destruct H as [_ H].
  pose proof (range_forallb _ _ H b ltac:(lia)) as H'.
  apply eqb_prop in H'. exact H'.
Qed.

Lemma in_unit_percent p : in_unit p -> 0 <= percent p <= 100.
Proof.
  intros U. destruct (in_unit_inv p U) as [[s ->]|(m & e & -> & He & Hm & Hn & Hv)];
    cbn [percent]; [lia|].
  cbn [Zval] in *. pose proof (pow2_pos (e + 1074) ltac:(lia)).
  assert (0 < Z.pos m * 2 ^ (e + 1074)) by nia.
  split; [apply scaled_floor_nonneg; lia|].
  rewrite <- scaled_floor_one. apply scaled_floor_mono; lia.
Qed.

Lemma percent_mono p q :
  in_unit p -> in_unit q -> leb p q = true -> percent p <= percent q.
Proof.
  intros Up Uq Hpq. pose proof (Zval_mono p q Up Uq Hpq) as Hv.
  pose proof (in_unit_percent q Uq) as Bq.
  destruct (in_unit_inv p Up) as [[s ->]|(m & e & -> & He & Hm & Hn & Hv1)];
    cbn [percent]; [lia|].
  destruct (in_unit_inv q Uq) as [[s ->]|(m' & e' & -> & He' & Hm' & Hn' & Hv2)];
    [discriminate|].
  cbn [percent]. cbn [Zval] in *.
  pose proof (pow2_pos (e + 1074) ltac:(lia)).
  apply scaled_floor_mono; nia.
Qed.

Lemma leb_zero_l s t y : leb (S754_zero s) y = leb (S754_zero t) y.
Proof. destruct y; reflexivity. Qed.

Lemma leb_zero_r s t x : leb x (S754_zero s) = leb x (S754_zero t).
Proof. destruct x; reflexivity. Qed.

(** The value shown for a payload of the interval [0, 1] is the number
    of an integer from 0 to 100, or [-0] for the payload [-0]. *)
Lemma displayed_percent p :
  in_unit p ->
  VideoPanel.displayed p = of_Z (percent p) \/
  (VideoPanel.displayed p = S754_zero true /\ percent p = 0).
Proof.
  intros U. pose proof (in_unit_percent p U) as B.
  destruct (in_unit_inv p U) as [[[] ->]|(m & e & -> & _)].
  - right. split; reflexivity.
  - left. reflexivity.
  - left. unfold VideoPanel.displayed. rewrite mul_hundred_floor by exact U.
    cbn [percent] in *. apply min_of_Z_small. exact B.
Qed.

(** The order of the values shown is the order of the integers. *)
Lemma displayed_leb p q :
  in_unit p -> in_unit q ->
  leb (VideoPanel.displayed p) (VideoPanel.displayed q) = (percent p <=? percent q).
Proof.
  intros Up Uq.
  pose proof (in_unit_percent p Up) as Bp. pose proof (in_unit_percent q Uq) as Bq.
  destruct (displayed_percent p Up) as [-> | [-> Zp]];
  destruct (displayed_percent q Uq) as [-> | [-> Zq]].
  - apply leb_of_Z_small; lia.
  - rewrite Zq. rewrite (leb_zero_r true false). apply (leb_of_Z_small _ 0); lia.
  - rewrite Zp. rewrite (leb_zero_l true false). apply (leb_of_Z_small 0); lia.
  - rewrite Zp, Zq. reflexivity.
Qed.

Lemma displayed_bounds p :
  in_unit p ->
  leb (S754_zero false) (VideoPanel.displayed p) = true /\
  leb (VideoPanel.displayed p) (of_Z 100) = true.
Proof.
  intros U. pose proof (in_unit_percent p U) as B.
  destruct (displayed_percent p U) as [-> | [-> Zp]].
  - change (S754_zero false) with (of_Z 0).
    rewrite !leb_of_Z_small by lia. split; apply Z.leb_le; lia.
  - split; reflexivity.
Qed.

Lemma displayed_mono p q :
  in_unit p -> in_unit q -> leb p q = true ->
  leb (VideoPanel.displayed p) (VideoPanel.displayed q) = true.
Proof.
  intros Up Uq Hpq. rewrite displayed_leb by assumption.
  apply Z.leb_le. apply percent_mono; assumption.
Qed.

(** ** Comparisons of numbers *)

Lemma leb_zero_false_iff x : leb x pos_zero = false <-> positive_or_nan x.
Proof.
  unfold positive_or_nan, gtb, NaN.
  destruct x as [s|[]| |[] m e]; cbn; intuition congruence.
Qed.

Lemma SFeqb_finite_eq x s m e :
  SFeqb x (S754_finite s m e) = true <-> x = S754_finite s m e.
Proof.
  split; [|intros ->].
  - destruct x as [t|[]| |t n f]; unfold SFeqb; cbn; try discriminate;
      try (destruct s; discriminate).
    destruct t, s; try discriminate;
      destruct (Z.compare_spec f e) as [C|C|C]; try discriminate;
      change (Pos.compare_cont Eq n m) with (Pos.compare n m);
      destruct (Pos.compare_spec n m); try discriminate; intros _; congruence.
  - unfold SFeqb; cbn. destruct s; rewrite Z.compare_refl;
      change (Pos.compare_cont Eq m m) with (Pos.compare m m);
      rewrite Pos.compare_refl; reflexivity.
Qed.

Lemma same_value_zero_zero_iff x s :
  same_value_zero (S754_zero s) x = true <-> exists t, x = S754_zero t.
Proof.
  destruct x as [t|[]| |[] n f]; cbn; split; try discriminate; eauto;
    intros [u Hu]; discriminate.
Qed.

Lemma same_value_zero_finite_iff x s m e :
  same_value_zero (S754_finite s m e) x = true <-> x = S754_finite s m e.
Proof.
  destruct x as [t|t| |t n f]; cbn [same_value_zero].
  - split; [destruct s; discriminate | discriminate].
  - split; [destruct s, t; discriminate | discriminate].
  - split; discriminate.
  - split.
    + intros H. symmetry. apply SFeqb_finite_eq. exact H.
    + intros H. apply SFeqb_finite_eq. congruence.
Qed.

(** ** Lists of validation errors *)

Lemma push_if_nil cond msg errors :
  push_if cond msg errors = [] <-> cond = false /\ errors = [].
Proof.
  unfold push_if. destruct cond.
  - split; [|intros [? _]; discriminate].
    intros H. destruct errors; discriminate.
  - tauto.
Qed.

Lemma push_if_In x cond msg errors :
  In x (push_if cond msg errors) <->
  In x errors \/ (cond = true /\ x = msg).
Proof.
  unfold push_if. destruct cond.
  - rewrite in_app_iff. cbn. intuition congruence.
  - intuition congruence.
Qed.

(** ** The image panel *)

Lemma image_validation_accepts_iff (c : image.ImageConfig) :
  ImagePanel.validationErrors c = [] <->
  truthy (trim (image.image_path c)) = true /\
  (opt_truthy (image.output_file_path c) = true \/
   opt_truthy (image.output_image_path c) = true) /\
  leb (image.scale_down c) pos_zero = false /\
  leb (image.font_size c) pos_zero = false /\
  leb (image.height_sample_scale c) pos_zero = false.
Proof.
  unfold ImagePanel.validationErrors. rewrite !push_if_nil.
  destruct (truthy (trim (image.image_path c)));
    destruct (opt_truthy (image.output_file_path c));
    destruct (opt_truthy (image.output_image_path c));
    cbn; intuition congruence.
Qed.

(** C8: [defaultImageConfig()] is one fixed value: [scale_down] is 1.0,
    [font_size] is 12.0 and [height_sample_scale] is the number nearest
    to 2.046, all three strictly positive; [invert] and [overwrite] are
    false, [image_path] is empty and both output paths are [null]. The
    validation rejects it with exactly the missing-input and the
    missing-output errors, so it cannot be submitted. *)
Theorem default_image_config_rejected :
  let d := image.defaultImageConfig in
  image.image_path d = [] /\
  image.scale_down d = of_Z 1 /\
  image.font_size d = of_Z 12 /\
  image.height_sample_scale d = S754_finite false 4607182418800017 (-51) /\
  gtb (image.scale_down d) pos_zero = true /\
  gtb (image.font_size d) pos_zero = true /\
  gtb (image.height_sample_scale d) pos_zero = true /\
  image.invert d = false /\
  image.overwrite d = false /\
  image.output_file_path d = JSnull /\
  image.output_image_path d = JSnull /\
  ImagePanel.validationErrors d = [ImagePanel.msg_input; ImagePanel.msg_output] /\
  ImagePanel.canSubmit false d = false.
Proof. cbv zeta. repeat split; vm_compute; reflexivity. Qed.

(** The number written [2.046] is within half a unit in the last place
    of 2046/1000. *)
Lemma height_sample_scale_nearest :
  image.height_sample_scale image.defaultImageConfig
    = S754_finite false 4607182418800017 (-51) /\
  Z.abs (1000 * 4607182418800017 - 2046 * 2 ^ 51) <= 500.
Proof. split; [vm_compute; reflexivity | vm_compute; discriminate]. Qed.

(** C1, at the input where it fails: a configuration whose text output is
    a single space and whose image output is [null] passes the validation
    and can be submitted, and the payload built for [process_image] has
    both output paths [null]. *)
Theorem blank_output_submitted_without_sink :
  ImagePanel.validationErrors blank_output_config = [] /\
  ImagePanel.canSubmit false blank_output_config = true /\
  image.output_file_path (ImagePanel.payload blank_output_config) = JSnull /\
  image.output_image_path (ImagePanel.payload blank_output_config) = JSnull /\
  (forall process_image,
     fst (ImagePanel.processImage process_image blank_output_config)
     = ImagePanel.payload blank_output_config).
Proof.
  repeat split; try (vm_compute; reflexivity).
  intros f. unfold ImagePanel.processImage.
  destruct (f (ImagePanel.payload blank_output_config)); reflexivity.
Qed.

(** The validation of the video panel does trim the output path: there, a
    path of one space is reported as missing. *)
Lemma blank_video_output_rejected :
  VideoPanel.validationErrors blank_video_config = [VideoPanel.msg_output].
Proof. vm_compute. reflexivity. Qed.

(** The engine, as the specification describes it, refuses the payload
    that the image panel builds from the blank output. *)
Lemma blank_output_payload_invalid E fs :
  ImagePipeline.run E (ImagePanel.payload blank_output_config) fs
  = (inl ImagePipeline.InvalidConfig, fs).
Proof. reflexivity. Qed.

(** The validation of the image panel, as it is written: it returns no
    error if and only if the trimmed [image_path] is not empty, at least
    one of [output_file_path] and [output_image_path] is truthy, and
    none of [scale_down], [font_size] and [height_sample_scale] is less
    than or equal to 0. *)
Lemma image_validation_as_written (c : image.ImageConfig) :
  ImagePanel.validationErrors c = [] <->
  trim (image.image_path c) <> [] /\
  (opt_truthy (image.output_file_path c) = true \/
   opt_truthy (image.output_image_path c) = true) /\
  positive_or_nan (image.scale_down c) /\
  positive_or_nan (image.font_size c) /\
  positive_or_nan (image.height_sample_scale c).
Proof.
  rewrite image_validation_accepts_iff, !leb_zero_false_iff.
  assert (T : truthy (trim (image.image_path c)) = true
              <-> trim (image.image_path c) <> []).
  { destruct (trim (image.image_path c)); cbn; intuition congruence. }
  rewrite T. tauto.
Qed.

(** Wherever no numeric field is NaN, the validation accepts exactly the
    configurations whose numeric fields are strictly greater than 0. *)
Lemma image_validation_without_nan (c : image.ImageConfig) :
  image.scale_down c <> S754_nan ->
  image.font_size c <> S754_nan ->
  image.height_sample_scale c <> S754_nan ->
  (ImagePanel.validationErrors c = [] <->
   trim (image.image_path c) <> [] /\
   (opt_truthy (image.output_file_path c) = true \/
    opt_truthy (image.output_image_path c) = true) /\
   gtb (image.scale_down c) pos_zero = true /\
   gtb (image.font_size c) pos_zero = true /\
   gtb (image.height_sample_scale c) pos_zero = true).
Proof.
  intros N1 N2 N3. rewrite image_validation_as_written.
  unfold positive_or_nan. tauto.
Qed.


(** ** The video panel *)

Lemma rotate_invalid_false_iff r :
  VideoPanel.rotate_invalid r = false <-> rotate_allowed r.
Proof.
  unfold VideoPanel.rotate_invalid, rotate_allowed, strict_eqb.
  change (of_Z (-1)) with (S754_finite true 4503599627370496 (-52)).
  change (of_Z 0) with (S754_zero false).
  change (of_Z 1) with (S754_finite false 4503599627370496 (-52)).
  change (of_Z 2) with (S754_finite false 4503599627370496 (-51)).
  cbn [existsb].
  pose proof (SFeqb_finite_eq r true 4503599627370496 (-52)) as H1.
  pose proof (same_value_zero_zero_iff r false) as H2.
  pose proof (same_value_zero_finite_iff r false 4503599627370496 (-52)) as H3.
  pose proof (same_value_zero_finite_iff r false 4503599627370496 (-51)) as H4.
  unfold pos_zero, neg_zero.
  destruct (SFeqb r (S754_finite true 4503599627370496 (-52)));
    destruct (same_value_zero (S754_zero false) r);
    destruct (same_value_zero (S754_finite false 4503599627370496 (-52)) r);
    destruct (same_value_zero (S754_finite false 4503599627370496 (-51)) r);
    cbn; split; intros H; try reflexivity; try discriminate;
    try (left; apply H1; reflexivity);
    try (right; right; right; left; apply H3; reflexivity);
    try (right; right; right; right; apply H4; reflexivity);
    try (destruct H2 as [[[] ->] _]; [reflexivity | tauto | tauto]).
  destruct H as [H|[H|[H|[H|H]]]].
  - apply H1 in H. discriminate.
  - assert (A : false = true) by (apply H2; eauto). discriminate.
  - assert (A : false = true) by (apply H2; eauto). discriminate.
  - apply H3 in H. discriminate.
  - apply H4 in H. discriminate.
Qed.

Lemma rotate_message_iff (c : video.VideoConfig) :
  In VideoPanel.msg_rotate (VideoPanel.validationErrors c) <->
  VideoPanel.rotate_invalid (video.rotate c) = true.
Proof.
  unfold VideoPanel.validationErrors. rewrite !push_if_In. cbn [In].
  split.
  - intros [[[[[[[[]|[_ H]]|[_ H]]|[_ H]]|[_ H]]|[_ H]]|[_ H]]|[H _]];
      try exact H; vm_compute in H; discriminate.
  - intros H. right. split; [exact H | reflexivity].
Qed.

Example rotate_three_invalid : VideoPanel.rotate_invalid (of_Z 3) = true.
Proof. reflexivity. Qed.

Example rotate_nan_invalid : VideoPanel.rotate_invalid NaN = true.
Proof. reflexivity. Qed.

Example rotate_values_pass :
  map VideoPanel.rotate_invalid [of_Z (-1); of_Z 0; neg_zero; of_Z 1; of_Z 2]
  = [false; false; false; false; false].
Proof. reflexivity. Qed.

(** C3: for every video configuration, the validation reports the rotate
    error exactly when [rotate] is none of -1, 0, 1 and 2; each of these
    four values (either zero for 0) passes without it. *)
Theorem rotate_error_iff (c : video.VideoConfig) :
  In VideoPanel.msg_rotate (VideoPanel.validationErrors c) <->
  ~ rotate_allowed (video.rotate c).
Proof.
  rewrite rotate_message_iff, <- rotate_invalid_false_iff.
  destruct (VideoPanel.rotate_invalid (video.rotate c)); intuition congruence.
Qed.

(** ** The progress bar *)

Lemma progress_trace_displayed st feed :
  VideoPanel.progress_trace st feed = map VideoPanel.displayed feed.
Proof.
  revert st. induction feed as [|p feed IH]; intros st; cbn; [reflexivity|].
  f_equal. apply IH.
Qed.

Example displayed_29_percent :
  VideoPanel.displayed (of_decimal 29 (-2)) = of_Z 28.
Proof. vm_compute. reflexivity. Qed.

Example displayed_one : VideoPanel.displayed (of_Z 1) = of_Z 100.
Proof. vm_compute. reflexivity. Qed.

(** C4: each payload [p] of the ["video-progress"] feed sets the shown
    progress to [Math.min(100, Math.floor(p * 100))]; the payloads being
    numbers of the interval [0, 1], every value shown lies within
    [0, 100]. *)
Theorem progress_feed_within_bar (st : VideoPanel.state) (feed : list number) :
  Forall in_unit feed ->
  VideoPanel.progress_trace st feed
    = map (fun p => Math_min (of_Z 100) (Math_floor (mul p (of_Z 100)))) feed /\
  Forall within_bar (VideoPanel.progress_trace st feed).
Proof.
  intros U. split; [apply progress_trace_displayed|].
  rewrite progress_trace_displayed.
  rewrite List.Forall_forall in *. intros v Hv.
  apply List.in_map_iff in Hv. destruct Hv as (p & <- & Hp).
  apply displayed_bounds. apply U. exact Hp.
Qed.

Lemma sample_feed_in_unit : Forall in_unit sample_feed.
Proof.
  repeat constructor; vm_compute; reflexivity.
Defined.

Lemma sample_feed_non_decreasing : non_decreasing sample_feed.
Proof.
  repeat constructor; vm_compute; reflexivity.
Defined.

Lemma progress_feed_within_bar_witness :
  Forall in_unit sample_feed /\
  Forall within_bar (VideoPanel.progress_trace mounted_state sample_feed).
Proof.
  split; [exact sample_feed_in_unit|].
  apply (progress_feed_within_bar mounted_state sample_feed sample_feed_in_unit).
Defined.

Lemma sorted_percent feed :
  Forall in_unit feed -> non_decreasing feed ->
  StronglySorted (fun x y => percent x <= percent y) feed.
Proof.
  intros U S. apply Sorted_StronglySorted.
  { intros x y z Hxy Hyz. lia. }
  induction S as [|p feed S IH Hd]; [constructor|].
  inversion U as [|? ? Up Uf]; subst.
  constructor; [apply IH; exact Uf|].
  destruct Hd as [|q feed' Hpq]; constructor.
  inversion Uf; subst. apply percent_mono; assumption.
Qed.

Lemma displayed_strongly_sorted feed :
  Forall in_unit feed ->
  StronglySorted (fun x y => percent x <= percent y) feed ->
  never_decreases (map VideoPanel.displayed feed).
Proof.
  intros U S. induction S as [|p feed S IH Hall]; cbn; [constructor|].
  inversion U as [|? ? Up Uf]; subst.
  constructor; [apply IH; exact Uf|].
  rewrite List.Forall_forall in *. intros v Hv.
  apply List.in_map_iff in Hv. destruct Hv as (q & <- & Hq).
  rewrite displayed_leb by auto.
  apply Z.leb_le. apply Hall. exact Hq.
Qed.

(** C5: across one run the bar never goes down: for a feed of payloads of
    the interval [0, 1] in which no payload is below the one before it,
    no value shown is above a value shown later. *)
Theorem progress_bar_never_decreases (st : VideoPanel.state) (feed : list number) :
  Forall in_unit feed ->
  non_decreasing feed ->
  never_decreases (VideoPanel.progress_trace st feed).
Proof.
  intros U S. rewrite progress_trace_displayed.
  apply displayed_strongly_sorted; [exact U|].
  apply sorted_percent; assumption.
Qed.

Lemma progress_bar_never_decreases_witness :
  Forall in_unit sample_feed /\ non_decreasing sample_feed /\
  never_decreases (VideoPanel.progress_trace mounted_state sample_feed).
Proof.
  split; [exact sample_feed_in_unit|]. split; [exact sample_feed_non_decreasing|].
  apply (progress_bar_never_decreases mounted_state sample_feed
           sample_feed_in_unit sample_feed_non_decreasing).
Defined.

Example sample_feed_trace :
  VideoPanel.progress_trace mounted_state sample_feed
  = [of_Z 28; of_Z 50; of_Z 100].
Proof. vm_compute. reflexivity. Qed.

(** ** A run of the video command *)

Lemma listener_keeps_status feed st :
  VideoPanel.status (fold_left (fun s e => VideoPanel.on_video_progress e s) feed st)
  = VideoPanel.status st.
Proof.
  revert st. induction feed as [|p feed IH]; intros st; cbn; [reflexivity|].
  rewrite IH. reflexivity.
Qed.

Lemma reports_done_last total consumed :
  last (VideoPipeline.reports total consumed VideoPipeline.Done) = Some (of_Z 1).
Proof. unfold VideoPipeline.reports. apply last_snoc. Qed.

(** C6: a successful run ends complete. The last report of a run that
    finalizes its output is exactly 1.0, for which the listener shows 100;
    and whatever the feed was, once [process_video] resolves the panel
    shows the progress 100 and the status [done]. *)
Theorem successful_run_ends_complete
        (now : number) (config : video.VideoConfig) (st : VideoPanel.state) :
  (forall total consumed,
     let feed := VideoPipeline.reports total consumed VideoPipeline.Done in
     last feed = Some (of_Z 1) /\
     last (VideoPanel.progress_trace (VideoPanel.processVideo_begin now st) feed)
       = Some (of_Z 100) /\
     VideoPipeline.answer VideoPipeline.Done = Resolved) /\
  (forall feed,
     let st' := VideoPanel.processVideo now config feed Resolved st in
     VideoPanel.progress st' = of_Z 100 /\ VideoPanel.status st' = done).
Proof.
  split.
  - intros total consumed feed. split; [apply reports_done_last|].
    split; [|reflexivity].
    rewrite progress_trace_displayed. unfold feed, VideoPipeline.reports.
    rewrite map_app. cbn [map]. rewrite last_snoc.
    vm_compute. reflexivity.
  - intros feed. cbn. split; reflexivity.
Qed.

(** ** The image pipeline *)





(** With the image sink alone requested, or the text sink alone, a run
    does write all or nothing. *)
Lemma single_sink_all_or_none E c fs :
  image.output_file_path c = JSnull \/ image.output_image_path c = JSnull ->
  all_or_none E c fs.
Proof.
  intros Hone. unfold all_or_none. cbv zeta. unfold ImagePipeline.run.
  assert (Same : forall l : list jsstring, Forall (fun p => fs !! p = fs !! p) l)
    by (intros l; apply List.Forall_forall; reflexivity).
  destruct (negb (ImagePipeline.config_ok c)); [right; apply Same|].
  destruct (ImagePipeline.decode E (image.image_path c)) as [frame|];
    [|right; apply Same].
  destruct (ImagePipeline.sample E frame _ _ _) as [grid|];
    [|right; apply Same].
  destruct (forallb _ (ImagePipeline.requested c)); cbn [negb];
    [|right; apply Same].
  unfold ImagePipeline.write_text, ImagePipeline.write_image,
    ImagePipeline.requested.
  destruct Hone as [-> | ->].
  - destruct (image.output_image_path c) as [| |p]; cbn [snd app];
      [left; constructor ..|].
    destruct (ImagePipeline.rasterize E grid (image.font_size c)) as [cv|];
      [|right; apply Same].
    destruct (ImagePipeline.encode E cv p) as [b|]; [|right; apply Same].
    left. cbn [snd]. constructor; [|constructor].
    rewrite lookup_insert_eq. eauto.
  - destruct (image.output_file_path c) as [| |p]; cbn [snd app];
      [left; constructor ..|].
    left. constructor; [|constructor]. rewrite lookup_insert_eq. eauto.
Qed.

(** ** Persisted configurations *)

Lemma spread_lookup_absent target v k :
  ~ In k (map fst (own_properties v)) -> spread target v !! k = target !! k.
Proof.
  unfold spread. generalize (own_properties v) as props.
  intros props. revert target.
  induction props as [|[q x] props IH]; intros target Hn; cbn; [reflexivity|].
  rewrite IH by (cbn in Hn; tauto).
  apply lookup_insert_ne. intros ->. cbn in Hn. tauto.
Qed.

Lemma spread_lookup_present target v k :
  is_Some (target !! k) -> is_Some (spread target v !! k).
Proof.
  unfold spread. generalize (own_properties v) as props.
  intros props. revert target.
  induction props as [|[q x] props IH]; intros target Hs; cbn; [exact Hs|].
  apply IH. destruct (decide (q = k)) as [->|Hne].
  - rewrite lookup_insert_eq. eauto.
  - rewrite lookup_insert_ne by exact Hne. exact Hs.
Qed.

Lemma spread_lookup_last target v k x l1 l2 :
  own_properties v = l1 ++ (k, x) :: l2 ->
  ~ In k (map fst l2) ->
  spread target v !! k = Some x.
Proof.
  unfold spread. intros -> Hn. rewrite foldl_app. cbn [foldl].
  generalize (foldl (fun o kv => <[kv.1:=kv.2]> o) target l1) as t.
  intros t. cbn [fst snd].
  assert (G : forall (l : list (jsstring * JSValue))
                     (o : gmap jsstring JSValue),
              ~ In k (map fst l) -> o !! k = Some x ->
              foldl (fun o kv => <[kv.1:=kv.2]> o) o l !! k = Some x).
  { induction l as [|[q y] l IH]; intros o Hl Ho; cbn; [exact Ho|].
    apply IH; [cbn in Hl; tauto|].
    rewrite lookup_insert_ne; [exact Ho|]. cbn in Hl. cbn. intros ->. tauto. }
  apply G; [exact Hn|]. apply lookup_insert_eq.
Qed.

(** C9, as stated, fails: from the stored text [{"image_path":null}] the
    image panel loads an object whose [image_path] is [null], which is
    not a configuration. *)
Lemma loaded_null_path_ill_formed :
  ImagePanel.loadPersistedConfig (Some stored_null_path) !! lit "image_path"
    = Some VNull /\
  ~ is_Some (image.of_object
               (ImagePanel.loadPersistedConfig (Some stored_null_path))).
Proof.
  split; [vm_compute; reflexivity|].
  intros [c Hc]. vm_compute in Hc. discriminate.
Qed.

(** A stored text that holds one well-typed field loads as the default
    configuration with that field replaced. *)
Example loaded_scale_only :
  image.of_object (ImagePanel.loadPersistedConfig (Some stored_scale_only))
  = Some {| image.image_path := [];
            image.scale_down := of_Z 4;
            image.font_size := of_Z 12;
            image.height_sample_scale := of_decimal 2046 (-3);
            image.invert := false;
            image.output_file_path := JSnull;
            image.output_image_path := JSnull;
            image.overwrite := false |}.
Proof. vm_compute. reflexivity. Qed.

(** C9, amended: [loadPersistedConfig] returns an object for any stored
    content, in both panels. It is the default configuration when
    nothing is stored, when the stored text is empty and when parsing
    throws. Otherwise it is the default configuration overlaid with the
    properties of the parsed value: a field absent from the stored JSON
    keeps its default value, a field present in the stored JSON takes
    the stored value (of its last occurrence), of whatever type, and
    every field of the default is present in the result. *)
Theorem loadPersistedConfig_merges_default
        (defaultVideoConfig : gmap jsstring JSValue) :
  let load := VideoPanel.loadPersistedConfig defaultVideoConfig in
  ImagePanel.loadPersistedConfig
    = VideoPanel.loadPersistedConfig (image.to_object image.defaultImageConfig) /\
  load None = defaultVideoConfig /\
  load (Some []) = defaultVideoConfig /\
  (forall text, JSON.parse text = None -> load (Some text) = defaultVideoConfig) /\
  (forall text parsed,
     text <> [] -> JSON.parse text = Some parsed ->
     load (Some text) = spread defaultVideoConfig parsed /\
     (forall k, ~ In k (map fst (own_properties parsed)) ->
                load (Some text) !! k = defaultVideoConfig !! k) /\
     (forall k x l1 l2,
        own_properties parsed = l1 ++ (k, x) :: l2 ->
        ~ In k (map fst l2) ->
        load (Some text) !! k = Some x)) /\
  (forall saved k,
     is_Some (defaultVideoConfig !! k) -> is_Some (load saved !! k)).
Proof.
  cbv zeta. split; [reflexivity|]. split; [reflexivity|].
  split; [reflexivity|]. split; [|split].
  - intros text H. unfold VideoPanel.loadPersistedConfig. rewrite H.
    destruct (truthy text); reflexivity.
  - intros text parsed Ht H. unfold VideoPanel.loadPersistedConfig. rewrite H.
    destruct text; [congruence|]. cbn [truthy]. split; [reflexivity|]. split.
    + intros k Hk. apply spread_lookup_absent. exact Hk.
    + intros k x l1 l2 Ho Hn. eapply spread_lookup_last; eauto.
  - intros saved k Hs. unfold VideoPanel.loadPersistedConfig.
    destruct saved as [text|]; [|exact Hs].
    destruct (truthy text); [|exact Hs].
    destruct (JSON.parse text); [|exact Hs].
    apply spread_lookup_present. exact Hs.
Qed.

(** ** The output path of the folder picker *)

Lemma includes_In s c : includes s c = true <-> In c s.
Proof.
  unfold includes. rewrite existsb_exists. split.
  - intros (x & Hx & E). apply N.eqb_eq in E. congruence.
  - intros H. exists c. split; [exact H | apply N.eqb_refl].
Qed.

Lemma endsWith_iff s c : endsWith s c = true <-> exists dir, s = dir ++ [c].
Proof.
  unfold endsWith. split.
  - destruct (rev s) as [|d r] eqn:E; [discriminate|].
    intros H. apply N.eqb_eq in H. subst d. exists (rev r).
    rewrite <- (rev_involutive s), E. reflexivity.
  - intros [dir ->]. rewrite rev_app_distr. cbn. apply N.eqb_refl.
Qed.

(** C10, as stated, fails: for the directory [/tmp//] the separator is
    [/] and the path set is [/tmp//output.mp4], in which the separator is
    doubled before the file name. *)
Lemma pick_output_keeps_doubled_separator :
  VideoPanel.separator (lit "/tmp//") = VideoPanel.slash /\
  VideoPanel.output_path (lit "/tmp//") = lit "/tmp//output.mp4" /\
  ~ ~ doubled_before_name (VideoPanel.separator (lit "/tmp//"))
        (VideoPanel.output_path (lit "/tmp//")).
Proof.
  split; [reflexivity|]. split; [reflexivity|].
  intros H. apply H. exists (lit "/tmp"). reflexivity.
Qed.

(** C10, amended: for every directory string returned by the folder
    picker, [pickOutputFile] sets [output_video_path] to the directory
    without the separator it may end with, followed by one separator and
    the file name [output.mp4]. The separator is the backslash when the
    directory contains one, and the slash otherwise. No separator is
    added to a directory that ends with one already, so the separator is
    doubled before the file name only when the directory itself ends
    with it twice. *)
Theorem pick_output_file_path
        (selected : jsstring) (config : video.VideoConfig) :
  let sep := VideoPanel.separator selected in
  let out := VideoPanel.output_path selected in
  video.output_video_path (VideoPanel.pickOutputFile (Some selected) config)
    = JSstr out /\
  (In VideoPanel.backslash selected -> sep = VideoPanel.backslash) /\
  (~ In VideoPanel.backslash selected -> sep = VideoPanel.slash) /\
  (exists dir,
     out = dir ++ [sep] ++ lit "output.mp4" /\
     (selected = dir /\ endsWith selected sep = false \/
      selected = dir ++ [sep])) /\
  (doubled_before_name sep out -> ends_doubled sep selected).
Proof.
  cbv zeta. split; [reflexivity|].
  split; [|split; [|split]].
  - intros H. apply includes_In in H. unfold VideoPanel.separator.
    rewrite H. reflexivity.
  - intros H. unfold VideoPanel.separator.
    destruct (includes selected VideoPanel.backslash) eqn:E; [|reflexivity].
    apply includes_In in E. tauto.
  - unfold VideoPanel.output_path.
    destruct (endsWith selected (VideoPanel.separator selected)) eqn:E.
    + apply endsWith_iff in E. destruct E as [dir Hd]. exists dir.
      split; [|right; exact Hd].
      rewrite Hd at 1. rewrite <- app_assoc. reflexivity.
    + exists selected. split; [|left; split; reflexivity].
      rewrite <- app_assoc. reflexivity.
  - unfold doubled_before_name, ends_doubled, VideoPanel.output_path.
    set (sep := VideoPanel.separator selected).
    intros [pre H].
    destruct (endsWith selected sep) eqn:E.
    + exists pre. change (pre ++ [sep; sep] ++ lit "output.mp4")
        with (pre ++ ([sep; sep] ++ lit "output.mp4")) in H.
      rewrite app_assoc in H. apply app_inv_tail in H. exact H.
    + exfalso.
      assert (A : selected ++ [sep] = (pre ++ [sep]) ++ [sep]).
      { apply (app_inv_tail (lit "output.mp4")).
        rewrite H. rewrite <- !app_assoc. reflexivity. }
      apply app_inj_tail in A. destruct A as [A _].
      assert (B : endsWith selected sep = true)
        by (apply endsWith_iff; eauto).
      congruence.
Qed.

(** When the dialog is dismissed the configuration is left as it is. *)
Lemma pick_output_file_dismissed config :
  VideoPanel.pickOutputFile None config = config.
Proof. reflexivity. Qed.

Example pick_output_unix :
  VideoPanel.output_path (lit "/home/u/clips") = lit "/home/u/clips/output.mp4".
Proof. reflexivity. Qed.

Example pick_output_root :
  VideoPanel.output_path (lit "/") = lit "/output.mp4".
Proof. reflexivity. Qed.

Example pick_output_windows :
  VideoPanel.output_path (lit "C:\clips") = lit "C:\clips\output.mp4".
Proof. reflexivity. Qed.

(* ===================================================================== *)
(** * Part IV: further properties of the panels *)
(* ===================================================================== *)

(** ** Trimming *)

Lemma trim_start_head s :
  match trim_start s with
  | c :: _ => is_white_space c = false
  | [] => True
  end.
Proof.
  induction s as [|c s IH]; cbn; [exact I|].
  destruct (is_white_space c) eqn:E; [exact IH | exact E].
Qed.

Lemma trim_start_suffix s : exists pre, s = pre ++ trim_start s.
Proof.
  induction s as [|c s [pre IH]]; cbn; [exists []; reflexivity|].
  destruct (is_white_space c).
  - exists (c :: pre). cbn. f_equal. exact IH.
  - exists []. reflexivity.
Qed.

Lemma trim_start_fixed s :
  match s with c :: _ => is_white_space c = false | [] => True end ->
  trim_start s = s.
Proof. destruct s as [|c s]; cbn; [reflexivity|]. intros ->. reflexivity. Qed.

Lemma trim_end_last s :
  match rev (trim_end s) with
  | c :: _ => is_white_space c = false
  | [] => True
  end.
Proof. unfold trim_end. rewrite rev_involutive. apply trim_start_head. Qed.

Lemma trim_end_prefix s : exists post, s = trim_end s ++ post.
Proof.
  unfold trim_end. destruct (trim_start_suffix (rev s)) as [pre H].
  exists (rev pre). rewrite <- rev_app_distr, <- H, rev_involutive. reflexivity.
Qed.

Lemma trim_end_fixed s :
  match rev s with c :: _ => is_white_space c = false | [] => True end ->
  trim_end s = s.
Proof.
  intros H. unfold trim_end. rewrite trim_start_fixed by exact H.
  apply rev_involutive.
Qed.

Lemma trim_no_outer_space s : no_outer_space (trim s).
Proof.
  unfold no_outer_space, trim. split; [|apply trim_end_last].
  pose proof (trim_start_head s) as H.
  destruct (trim_end_prefix (trim_start s)) as [post E].
  destruct (trim_end (trim_start s)) as [|c t]; [exact I|].
  rewrite E in H. exact H.
Qed.

Lemma trim_fixed s : no_outer_space s -> trim s = s.
Proof.
  intros [H1 H2]. unfold trim. rewrite trim_start_fixed by exact H1.
  apply trim_end_fixed. exact H2.
Qed.

Lemma trim_idempotent s : trim (trim s) = trim s.
Proof. apply trim_fixed. apply trim_no_outer_space. Qed.

Lemma trim_or_null_normal p : normal_path (trim_or_null p).
Proof.
  destruct p as [| |s]; cbn; try exact I.
  destruct (trim s) as [|c t] eqn:E; cbn; [exact I|].
  split; [discriminate|]. rewrite <- E. apply trim_no_outer_space.
Qed.

Lemma trim_or_null_fixed p : normal_path p -> trim_or_null p = p.
Proof.
  destruct p as [| |s]; cbn; [tauto | reflexivity |].
  intros [Hne Hs]. rewrite (trim_fixed s Hs).
  destruct s; [congruence | reflexivity].
Qed.

Lemma trim_or_null_null_iff p : trim_or_null p = JSnull <-> blank p.
Proof.
  destruct p as [| |s]; cbn; try tauto.
  destruct (trim s); cbn; split; congruence.
Qed.

(** X1: the payload of [processImage] carries each output path in a
    normal form: [null], or a string that is not empty and has no white
    space around it, never [undefined]; it is [null] exactly when the
    field of the configuration is blank, and building the payload of a
    payload changes nothing. *)
Theorem image_payload_normal_form (c : image.ImageConfig) :
  let p := ImagePanel.payload c in
  normal_path (image.output_file_path p) /\
  normal_path (image.output_image_path p) /\
  (image.output_file_path p = JSnull <-> blank (image.output_file_path c)) /\
  (image.output_image_path p = JSnull <-> blank (image.output_image_path c)) /\
  ImagePanel.payload p = p.
Proof.
  cbv zeta. unfold ImagePanel.payload. cbn.
  split; [apply trim_or_null_normal|]. split; [apply trim_or_null_normal|].
  split; [apply trim_or_null_null_iff|]. split; [apply trim_or_null_null_iff|].
  rewrite (trim_or_null_fixed (trim_or_null (image.output_file_path c)))
    by apply trim_or_null_normal.
  rewrite (trim_or_null_fixed (trim_or_null (image.output_image_path c)))
    by apply trim_or_null_normal.
  reflexivity.
Qed.

(** ** The validation of the video panel *)

Lemma output_missing_false_iff p :
  VideoPanel.output_missing p = false <->
  exists s, p = JSstr s /\ trim s <> [].
Proof.
  unfold VideoPanel.output_missing.
  destruct p as [| |s].
  - split; [intros H; discriminate H | intros (s & H & _); discriminate H].
  - split; [intros H; discriminate H | intros (s & H & _); discriminate H].
  - split.
    + intros H. exists s. split; [reflexivity|].
      apply orb_false_elim in H. destruct H as [_ H].
      destruct (trim s); [discriminate H | discriminate].
    + intros (s' & H & T). inversion H; subst s'.
      destruct s as [|c s]; [exfalso; apply T; reflexivity|].
      destruct (trim (c :: s)); [congruence | reflexivity].
Qed.

Lemma video_validation_accepts_iff (c : video.VideoConfig) :
  VideoPanel.validationErrors c = [] <->
  truthy (trim (video.video_path c)) = true /\
  VideoPanel.output_missing (video.output_video_path c) = false /\
  leb (video.scale_down c) pos_zero = false /\
  leb (video.font_size c) pos_zero = false /\
  leb (video.height_sample_scale c) pos_zero = false /\
  leb (video.max_fps c) pos_zero = false /\
  VideoPanel.rotate_invalid (video.rotate c) = false.
Proof.
  unfold VideoPanel.validationErrors. rewrite !push_if_nil.
  destruct (truthy (trim (video.video_path c))); cbn; intuition congruence.
Qed.

(** X2: the validation of the video panel returns no error if and only
    if the trimmed [video_path] is not empty, [output_video_path] is a
    string that is not empty once trimmed, none of [scale_down],
    [font_size], [height_sample_scale] and [max_fps] is less than or
    equal to 0 (each is greater than 0 or NaN), and [rotate] is one of
    -1, 0, 1 and 2. *)
Theorem video_validation_accepts (c : video.VideoConfig) :
  VideoPanel.validationErrors c = [] <->
  trim (video.video_path c) <> [] /\
  (exists s, video.output_video_path c = JSstr s /\ trim s <> []) /\
  positive_or_nan (video.scale_down c) /\
  positive_or_nan (video.font_size c) /\
  positive_or_nan (video.height_sample_scale c) /\
  positive_or_nan (video.max_fps c) /\
  rotate_allowed (video.rotate c).
Proof.
  rewrite video_validation_accepts_iff, !leb_zero_false_iff,
    output_missing_false_iff, rotate_invalid_false_iff.
  assert (T : truthy (trim (video.video_path c)) = true
              <-> trim (video.video_path c) <> []).
  { destruct (trim (video.video_path c)); cbn; intuition congruence. }
  rewrite T. tauto.
Qed.

(** X3: a video configuration that the validation accepts always gives
    [process_video] an output: the payload's [output_video_path] is the
    trimmed path of the configuration, a string that is not empty and
    has no white space around it. *)
Theorem accepted_video_payload_has_output (c : video.VideoConfig) :
  VideoPanel.validationErrors c = [] ->
  exists s,
    video.output_video_path c = JSstr s /\
    video.output_video_path (VideoPanel.payload c) = JSstr (trim s) /\
    trim s <> [] /\ no_outer_space (trim s).
Proof.
  intros H. apply video_validation_accepts_iff in H.
  destruct H as (_ & H & _). apply output_missing_false_iff in H.
  destruct H as (s & Hs & Ht). exists s.
  split; [exact Hs|]. split; [|split; [exact Ht | apply trim_no_outer_space]].
  unfold VideoPanel.payload. cbn. rewrite Hs. cbn.
  destruct (trim s); [congruence | reflexivity].
Qed.

Lemma accepted_video_payload_has_output_witness :
  VideoPanel.validationErrors accepted_video_config = [] /\
  exists s,
    video.output_video_path accepted_video_config = JSstr s /\
    video.output_video_path (VideoPanel.payload accepted_video_config)
      = JSstr (trim s) /\
    trim s <> [] /\ no_outer_space (trim s).
Proof.
  split; [vm_compute; reflexivity|].
  apply (accepted_video_payload_has_output accepted_video_config).
  vm_compute. reflexivity.
Defined.

Example accepted_video_payload_path :
  video.output_video_path (VideoPanel.payload accepted_video_config)
  = JSstr (lit "/tmp/out.mp4").
Proof. vm_compute. reflexivity. Qed.

(** ** The error lists as keys *)

Lemma push_if_cases cond msg errors :
  push_if cond msg errors = errors \/ push_if cond msg errors = errors ++ [msg].
Proof. destruct cond; cbn; auto. Qed.

(** X4: in both panels no message is listed twice, whatever the
    configuration, so that the messages can serve as the keys of the
    list that shows them; the image panel lists at most five errors and
    the video panel at most seven. *)
Theorem validation_errors_distinct
        (ci : image.ImageConfig) (cv : video.VideoConfig) :
  NoDup (ImagePanel.validationErrors ci) /\
  (length (ImagePanel.validationErrors ci) <= 5)%nat /\
  NoDup (VideoPanel.validationErrors cv) /\
  (length (VideoPanel.validationErrors cv) <= 7)%nat.
Proof.
  unfold ImagePanel.validationErrors, VideoPanel.validationErrors.
  split; [|split; [|split]];
    repeat match goal with
           | |- context [push_if ?b _ _] => destruct b; cbn [push_if]
           end;
    try (cbn; lia);
    apply (bool_decide_unpack _); vm_compute; exact I.
Qed.

(** ** The outcome of an image run *)

Lemma filter_Boolean_normal p q :
  Forall (fun o => o <> [] /\ no_outer_space o)
         (ImagePanel.filter_Boolean [trim_or_null p; trim_or_null q]).
Proof.
  unfold ImagePanel.filter_Boolean. cbn [flat_map]. rewrite app_nil_r.
  apply Forall_app. split.
  - pose proof (trim_or_null_normal p) as H.
    destruct (trim_or_null p) as [| |s]; [constructor..|].
    destruct s; cbn [truthy]; [constructor|].
    constructor; [exact H | constructor].
  - pose proof (trim_or_null_normal q) as H.
    destruct (trim_or_null q) as [| |s]; [constructor..|].
    destruct s; cbn [truthy]; [constructor|].
    constructor; [exact H | constructor].
Qed.

Lemma filter_Boolean_nil_iff p q :
  ImagePanel.filter_Boolean [trim_or_null p; trim_or_null q] = [] <->
  blank p /\ blank q.
Proof.
  rewrite <- !trim_or_null_null_iff.
  pose proof (trim_or_null_normal p) as Hp.
  pose proof (trim_or_null_normal q) as Hq.
  unfold ImagePanel.filter_Boolean. cbn [flat_map]. rewrite app_nil_r.
  destruct (trim_or_null p) as [| |s], (trim_or_null q) as [| |t];
    cbn in *; try tauto;
    try (destruct s; cbn; [tauto|]); try (destruct t; cbn; [tauto|]);
    split; try discriminate; intros [A B]; discriminate.
Qed.

(** X5: what [processImage] leaves behind. In either outcome
    [processing] is off again. When [process_image] resolves, the status
    is [done] and the outputs listed are trimmed, non-empty paths, at
    most two, and none exactly when both output fields of the
    configuration are blank. When it throws, the status is [error], the
    message is kept and no output is listed. *)
Theorem image_run_outcome
        (process_image : image.ImageConfig -> invoke_result)
        (c : image.ImageConfig) :
  let st := snd (ImagePanel.processImage process_image c) in
  ImagePanel.processing st = false /\
  (process_image (ImagePanel.payload c) = Resolved ->
   ImagePanel.status st = done /\
   ImagePanel.processError st = JSnull /\
   Forall (fun o => o <> [] /\ no_outer_space o) (ImagePanel.outputs st) /\
   (length (ImagePanel.outputs st) <= 2)%nat /\
   (ImagePanel.outputs st = [] <->
    blank (image.output_file_path c) /\ blank (image.output_image_path c))) /\
  (forall message,
     process_image (ImagePanel.payload c) = Rejected message ->
     ImagePanel.status st = error /\
     ImagePanel.processError st = JSstr message /\
     ImagePanel.outputs st = []).
Proof.
  cbv zeta. unfold ImagePanel.processImage.
  destruct (process_image (ImagePanel.payload c)) as [|m] eqn:E; cbn [snd].
  - split; [reflexivity|]. split; [|discriminate].
    intros _. cbn [ImagePanel.status ImagePanel.processError ImagePanel.outputs
                    ImagePanel.payload image.output_file_path
                    image.output_image_path].
    split; [reflexivity|]. split; [reflexivity|].
    split; [apply filter_Boolean_normal|].
    split; [|apply filter_Boolean_nil_iff].
    unfold ImagePanel.filter_Boolean. cbn [flat_map]. rewrite app_nil_r.
    rewrite length_app.
    destruct (trim_or_null _) as [| |[|? ?]], (trim_or_null _) as [| |[|? ?]];
      cbn; lia.
  - split; [reflexivity|]. split; [discriminate|].
    intros message H. inversion H; subst. repeat split.
Qed.

Lemma image_run_outcome_witness :
  let c := ImagePanel.pickTextOutput (Some (lit " a.txt "))
             (ImagePanel.pickImage (Some (lit "a.png"))
                image.defaultImageConfig) in
  let st := snd (ImagePanel.processImage (fun _ => Resolved) c) in
  ImagePanel.status st = done /\ ImagePanel.outputs st = [lit "a.txt"].
Proof.
  cbv zeta.
  destruct (image_run_outcome (fun _ => Resolved)
              (ImagePanel.pickTextOutput (Some (lit " a.txt "))
                 (ImagePanel.pickImage (Some (lit "a.png"))
                    image.defaultImageConfig)))
    as (_ & H & _).
  destruct (H eq_refl) as (D & _).
  split; [exact D | vm_compute; reflexivity].
Defined.


(** ** Picking the output folder *)

Lemma output_message_iff (c : video.VideoConfig) :
  In VideoPanel.msg_output (VideoPanel.validationErrors c) <->
  VideoPanel.output_missing (video.output_video_path c) = true.
Proof.
  unfold VideoPanel.validationErrors. rewrite !push_if_In. cbn [In].
  split.
  - intros [[[[[[[[]|[_ H]]|[H _]]|[_ H]]|[_ H]]|[_ H]]|[_ H]]|[_ H]];
      try exact H; vm_compute in H; discriminate.
  - intros H. do 5 left. right. split; [exact H | reflexivity].
Qed.

Lemma trim_start_app x t :
  match t with c :: _ => is_white_space c = false | [] => True end ->
  trim_start (x ++ t) = trim_start x ++ t.
Proof.
  intros H. induction x as [|c x IH]; cbn.
  - apply trim_start_fixed. exact H.
  - destruct (is_white_space c); [exact IH | reflexivity].
Qed.

Lemma trim_app_name x :
  trim (x ++ lit "output.mp4") = trim_start x ++ lit "output.mp4".
Proof.
  unfold trim. rewrite trim_start_app by reflexivity.
  apply trim_end_fixed. rewrite rev_app_distr. reflexivity.
Qed.

(** X6: once a folder has been picked, whatever string the picker
    returned, the output path is not missing: the validation does not
    report the output error, and the payload of [processVideo] carries a
    path that ends with [output.mp4]. *)
Theorem picked_folder_is_an_output
        (dir : jsstring) (config : video.VideoConfig) :
  let c := VideoPanel.pickOutputFile (Some dir) config in
  ~ In VideoPanel.msg_output (VideoPanel.validationErrors c) /\
  exists pre,
    video.output_video_path (VideoPanel.payload c)
    = JSstr (pre ++ lit "output.mp4").
Proof.
  cbv zeta. unfold VideoPanel.pickOutputFile, VideoPanel.payload.
  cbn [video.output_video_path video.set_output_video_path].
  unfold VideoPanel.output_path.
  set (path := if endsWith dir (VideoPanel.separator dir) then dir
               else dir ++ [VideoPanel.separator dir]).
  assert (T : trim (path ++ lit "output.mp4")
              = trim_start path ++ lit "output.mp4") by apply trim_app_name.
  split.
  - rewrite output_message_iff.
    cbn [video.output_video_path video.set_output_video_path].
    unfold VideoPanel.output_missing. rewrite T.
    destruct path; cbn; [discriminate|].
    rewrite length_app. cbn.
    destruct (is_white_space n); [|discriminate].
    rewrite Nat.add_comm. discriminate.
  - exists (trim_start path). cbn [trim_or_null]. rewrite T.
    destruct (trim_start path); reflexivity.
Qed.

(** ** The folder proposed by the picker *)

Lemma lastIndexOf_from_absent s c i found :
  ~ In c s -> lastIndexOf_from s c i found = found.
Proof.
  revert i found. induction s as [|d s IH]; intros i found H; cbn;
    [reflexivity|].
  rewrite IH by (cbn in H; tauto).
  destruct (N.eqb_spec d c) as [->|]; [cbn in H; tauto | reflexivity].
Qed.

Lemma lastIndexOf_from_last pre c post i found :
  ~ In c post ->
  lastIndexOf_from (pre ++ c :: post) c i found = i + Z.of_nat (length pre).
Proof.
  intros H. revert i found.
  induction pre as [|d pre IH]; intros i found; cbn [app lastIndexOf_from].
  - rewrite N.eqb_refl. rewrite lastIndexOf_from_absent by exact H.
    cbn. lia.
  - rewrite IH. cbn [length]. lia.
Qed.

Lemma substring_prefix pre post :
  substring (pre ++ post) 0 (Z.of_nat (length pre)) = pre.
Proof.
  unfold substring. rewrite length_app.
  replace (Z.min (Z.max 0 0) _) with 0 by lia.
  replace (Z.min (Z.max (Z.of_nat (length pre)) 0) _)
    with (Z.of_nat (length pre)) by lia.
  replace (Z.max 0 (Z.of_nat (length pre)) - Z.min 0 (Z.of_nat (length pre)))
    with (Z.of_nat (length pre)) by lia.
  replace (Z.min 0 (Z.of_nat (length pre))) with 0 by lia.
  rewrite Nat2Z.id. change (Z.to_nat 0) with 0%nat. rewrite drop_0.
  rewrite List.firstn_app, List.firstn_all, Nat.sub_diag. cbn.
  apply app_nil_r.
Qed.

Lemma substring_to_minus_one s : substring s 0 (-1) = [].
Proof.
  unfold substring.
  replace (Z.min (Z.max 0 0) _) with 0 by lia.
  replace (Z.min (Z.max (-1) 0) _) with 0 by lia.
  reflexivity.
Qed.

Lemma output_path_split dir :
  exists base,
    VideoPanel.output_path dir
    = base ++ [VideoPanel.separator dir] ++ lit "output.mp4" /\
    (dir = base /\ endsWith dir (VideoPanel.separator dir) = false \/
     dir = base ++ [VideoPanel.separator dir]).
Proof.
  unfold VideoPanel.output_path.
  destruct (endsWith dir (VideoPanel.separator dir)) eqn:E.
  - apply endsWith_iff in E. destruct E as [base Hd]. exists base.
    split; [|right; exact Hd].
    rewrite Hd at 1. rewrite <- app_assoc. reflexivity.
  - exists dir. split; [|left; split; reflexivity].
    rewrite <- app_assoc. reflexivity.
Qed.

Lemma separator_slash dir :
  ~ In VideoPanel.backslash dir -> VideoPanel.separator dir = VideoPanel.slash.
Proof.
  intros H. unfold VideoPanel.separator.
  destruct (includes dir VideoPanel.backslash) eqn:E; [|reflexivity].
  apply includes_In in E. tauto.
Qed.

Lemma separator_backslash dir :
  In VideoPanel.backslash dir ->
  VideoPanel.separator dir = VideoPanel.backslash.
Proof.
  intros H. apply includes_In in H. unfold VideoPanel.separator.
  rewrite H. reflexivity.
Qed.


(** X7: a folder written with slashes comes back: after [pickOutputFile]
    set the output path from a directory that contains no backslash, the
    [defaultPath] handed to the next folder picker is that directory,
    without the slash it may end with. *)
Theorem default_path_returns_folder
        (dir : jsstring) (config : video.VideoConfig) :
  ~ In VideoPanel.backslash dir ->
  exists base,
    (dir = base /\ endsWith dir VideoPanel.slash = false \/
     dir = base ++ [VideoPanel.slash]) /\
    VideoPanel.defaultPath (VideoPanel.pickOutputFile (Some dir) config)
    = JSstr base.
Proof.
  intros Hb.
  destruct (output_path_split dir) as (base & Hout & Hdir).
  rewrite (separator_slash dir Hb) in *. exists base. split; [exact Hdir|].
  unfold VideoPanel.defaultPath, VideoPanel.pickOutputFile.
  cbn [video.output_video_path video.set_output_video_path].
  rewrite Hout.
  assert (T : truthy (base ++ [VideoPanel.slash] ++ lit "output.mp4") = true)
    by (destruct base; reflexivity).
  rewrite T. f_equal. unfold lastIndexOf.
  rewrite (lastIndexOf_from_last base VideoPanel.slash (lit "output.mp4"))
    by (vm_compute; intuition discriminate).
  apply substring_prefix.
Qed.

Lemma default_path_returns_folder_witness :
  ~ In VideoPanel.backslash (lit "/home/u/clips") /\
  exists base,
    (lit "/home/u/clips" = base /\
     endsWith (lit "/home/u/clips") VideoPanel.slash = false \/
     lit "/home/u/clips" = base ++ [VideoPanel.slash]) /\
    VideoPanel.defaultPath
      (VideoPanel.pickOutputFile (Some (lit "/home/u/clips"))
                                 sample_video_config)
    = JSstr base.
Proof.
  assert (H : ~ In VideoPanel.backslash (lit "/home/u/clips"))
    by (vm_compute; intuition discriminate).
  split; [exact H|].
  apply (default_path_returns_folder (lit "/home/u/clips")
           sample_video_config H).
Defined.

(** X8: a folder written with backslashes only does not come back: the
    output path is cut at its last slash, and when the directory picked
    contains a backslash and no slash, the [defaultPath] handed to the
    next folder picker is the empty string. *)
Theorem default_path_lost_for_backslashes
        (dir : jsstring) (config : video.VideoConfig) :
  In VideoPanel.backslash dir -> ~ In VideoPanel.slash dir ->
  VideoPanel.defaultPath (VideoPanel.pickOutputFile (Some dir) config)
  = JSstr [].
Proof.
  intros Hb Hs.
  destruct (output_path_split dir) as (base & Hout & Hdir).
  rewrite (separator_backslash dir Hb) in *.
  unfold VideoPanel.defaultPath, VideoPanel.pickOutputFile.
  cbn [video.output_video_path video.set_output_video_path].
  rewrite Hout.
  assert (T : truthy (base ++ [VideoPanel.backslash] ++ lit "output.mp4")
              = true) by (destruct base; reflexivity).
  rewrite T. f_equal. unfold lastIndexOf.
  rewrite lastIndexOf_from_absent; [apply substring_to_minus_one|].
  rewrite !in_app_iff. intros [H|[H|H]].
  - apply Hs. destruct Hdir as [[-> _]| ->]; [exact H|].
    rewrite in_app_iff. left. exact H.
  - vm_compute in H. intuition discriminate.
  - vm_compute in H. intuition discriminate.
Qed.

Lemma default_path_lost_for_backslashes_witness :
  In VideoPanel.backslash (lit "C:\clips") /\
  ~ In VideoPanel.slash (lit "C:\clips") /\
  VideoPanel.defaultPath
    (VideoPanel.pickOutputFile (Some (lit "C:\clips")) sample_video_config)
  = JSstr [].
Proof.
  assert (H1 : In VideoPanel.backslash (lit "C:\clips"))
    by (vm_compute; tauto).
  assert (H2 : ~ In VideoPanel.slash (lit "C:\clips"))
    by (vm_compute; intuition discriminate).
  split; [exact H1|]. split; [exact H2|].
  apply (default_path_lost_for_backslashes (lit "C:\clips")
           sample_video_config H1 H2).
Defined.

(** ** Stored fields *)

(** X9: a field that the stored JSON holds takes the stored value: when
    the stored text parses, each property that the parsed value carries
    is, in the loaded object, the value of its last occurrence, in both
    panels, whatever the default holds for it. *)
Theorem stored_field_wins
        (defaultVideoConfig : gmap jsstring JSValue)
        (text : jsstring) (parsed : JSValue)
        (k : jsstring) (x : JSValue) (l1 l2 : list (jsstring * JSValue)) :
  text <> [] ->
  JSON.parse text = Some parsed ->
  own_properties parsed = l1 ++ (k, x) :: l2 ->
  ~ In k (map fst l2) ->
  VideoPanel.loadPersistedConfig defaultVideoConfig (Some text) !! k = Some x /\
  ImagePanel.loadPersistedConfig (Some text) !! k = Some x.
Proof.
  intros Ht Hp Ho Hn.
  unfold VideoPanel.loadPersistedConfig, ImagePanel.loadPersistedConfig.
  rewrite Hp. destruct text; [congruence|]. cbn [truthy].
  split; eapply spread_lookup_last; eauto.
Qed.

Lemma stored_field_wins_witness :
  ImagePanel.loadPersistedConfig (Some stored_scale_only) !! lit "scale_down"
  = Some (VNum (of_Z 4)).
Proof.
  apply (stored_field_wins ∅ stored_scale_only
           (VObj [(lit "scale_down", VNum (of_Z 4))])
           (lit "scale_down") (VNum (of_Z 4)) [] []).
  - discriminate.
  - vm_compute. reflexivity.
  - reflexivity.
  - cbn. tauto.
Defined.

(** ** The bar and the exact product *)

Lemma scaled_floor_true_floor v :
  0 < v <= 2 ^ 1074 ->
  100 * v / 2 ^ 1074 <= scaled_floor v <= 100 * v / 2 ^ 1074 + 1.
Proof.
  intros Hv. destruct (scaled_floor_exponent v Hv) as (W & D & E).
  unfold scaled_floor.
  set (w := v * hundred_m) in *.
  set (F := fexp prec emax (Zdigits2 w - 1120)) in *.
  pose proof (rne_bounds w (F + 1120) ltac:(lia) ltac:(lia)) as B.
  set (M := rne w (F + 1120)) in *.
  assert (Hw : 100 * v / 2 ^ 1074 = w / 2 ^ (F + 1120) / 2 ^ (- F)).
  { rewrite Z.div_div by (try apply Z.pow_nonzero; try apply pow2_pos; lia).
    rewrite <- Z.pow_add_r by lia.
    replace (F + 1120 + - F) with (46 + 1074) by lia.
    rewrite Z.pow_add_r by lia.
    unfold w, hundred_m. change 7036874417766400 with (100 * 2 ^ 46).
    replace (v * (100 * 2 ^ 46)) with (100 * v * 2 ^ 46) by ring.
    rewrite Z.mul_comm with (n := 2 ^ 46).
    rewrite Z.div_mul_cancel_r; [reflexivity| |];
      apply Z.pow_nonzero; lia. }
  rewrite Hw.
  pose proof (pow2_pos (- F) ltac:(lia)) as Hp.
  split.
  - apply Z.div_le_mono; lia.
  - apply Z.le_trans with ((w / 2 ^ (F + 1120) + 1) / 2 ^ (- F)).
    + apply Z.div_le_mono; lia.
    + set (q := w / 2 ^ (F + 1120)).
      assert (2 <= 2 ^ (- F)).
      { change 2 with (2 ^ 1) at 1. apply Z.pow_le_mono_r; lia. }
      pose proof (Z.div_mod q (2 ^ (- F)) ltac:(lia)) as Eq.
      pose proof (Z.mod_pos_bound q (2 ^ (- F)) Hp) as Bq.
      apply Z.div_le_upper_bound; [lia|]. nia.
Qed.

(** X10: the value shown for a payload of the interval [0, 1] is a whole
    number [k] from 0 to 100, and it is the integer part of the exact
    product of the payload by 100, or one more when the product rounds
    up to a whole number; [Zval p] is the payload in units of
    [2 ^ -1074]. *)
Theorem displayed_is_near_exact (p : number) :
  in_unit p ->
  exists k,
    strict_eqb (VideoPanel.displayed p) (of_Z k) = true /\
    0 <= k <= 100 /\
    100 * Zval p / 2 ^ 1074 <= k <= 100 * Zval p / 2 ^ 1074 + 1.
Proof.
  intros U. exists (percent p).
  pose proof (in_unit_percent p U) as B.
  split; [|split; [exact B|]].
  - destruct (displayed_percent p U) as [-> | [-> Zp]].
    + pose proof (leb_of_Z_small (percent p) (percent p) B B) as H.
      rewrite Z.leb_refl in H.
      unfold strict_eqb, SFeqb. unfold leb, SFleb in H.
      destruct (SFcompare (of_Z (percent p)) (of_Z (percent p))) as [[]|] eqn:C;
        try reflexivity; try discriminate.
      exfalso. revert C. generalize (of_Z (percent p)).
      intros [s|[]| |[] m e]; cbn; try discriminate;
        rewrite Z.compare_refl;
        change (Pos.compare_cont Eq m m) with (Pos.compare m m);
        rewrite Pos.compare_refl; discriminate.
    + rewrite Zp. reflexivity.
  - destruct (in_unit_inv p U) as [[s ->]|(m & e & -> & He & Hm & Hn & Hv)].
    + cbn [Zval percent]. rewrite Z.mul_0_r.
      rewrite Z.div_0_l by (apply Z.pow_nonzero; lia). lia.
    + cbn [percent]. apply scaled_floor_true_floor.
      cbn [Zval] in *. pose proof (pow2_pos (e + 1074) ltac:(lia)).
      split; [nia | exact Hv].
Qed.

Lemma displayed_is_near_exact_witness :
  in_unit (of_decimal 3 (-2)) /\
  exists k,
    strict_eqb (VideoPanel.displayed (of_decimal 3 (-2))) (of_Z k) = true /\
    0 <= k <= 100 /\
    100 * Zval (of_decimal 3 (-2)) / 2 ^ 1074 <= k
      <= 100 * Zval (of_decimal 3 (-2)) / 2 ^ 1074 + 1.
Proof.
  assert (U : in_unit (of_decimal 3 (-2)))
    by (repeat split; vm_compute; reflexivity).
  split; [exact U|]. apply (displayed_is_near_exact (of_decimal 3 (-2)) U).
Defined.

(** The payload 0.03 is shown as 3 although its exact product by 100 is
    below 3: the product rounds up. *)
Example displayed_three_percent :
  VideoPanel.displayed (of_decimal 3 (-2)) = of_Z 3 /\
  100 * Zval (of_decimal 3 (-2)) / 2 ^ 1074 = 2.
Proof. split; vm_compute; reflexivity. Qed.

(** ** The full bar *)

Lemma one_in_unit : in_unit (of_Z 1).
Proof. repeat split; vm_compute; reflexivity. Qed.

Lemma percent_below_one p : in_unit p -> p <> of_Z 1 -> percent p <= 99.
Proof.
  intros U Hne.
  destruct (in_unit_inv p U) as [[s ->]|(m & e & -> & He & Hm & Hn & Hv)];
    [cbn; lia|].
  cbn [percent Zval] in *.
  pose proof (pow2_pos (e + 1074) ltac:(lia)) as Hp.
  destruct (Z.eq_dec e (-52)) as [->|Ne].
  - exfalso. apply Hne. specialize (Hn ltac:(lia)).
    change (2 ^ (-52 + 1074)) with (2 ^ 1022) in *.
    change (2 ^ 1074) with (2 ^ 52 * 2 ^ 1022) in Hv.
    assert (Z.pos m <= 2 ^ 52) by nia.
    assert (E : Z.pos m = 2 ^ 52) by lia.
    change (of_Z 1) with (S754_finite false 4503599627370496 (-52)).
    f_equal. change (2 ^ 52) with (Z.pos 4503599627370496) in E.
    congruence.
  - replace 99 with (scaled_floor ((2 ^ 53 - 1) * 2 ^ 1021))
      by (vm_compute; reflexivity).
    apply scaled_floor_mono.
    + nia.
    + assert (2 ^ (e + 1074) <= 2 ^ 1021) by (apply Z.pow_le_mono_r; lia).
      assert (0 < 2 ^ 53 - 1) by (change (2 ^ 53) with 9007199254740992; lia).
      apply Z.mul_le_mono_nonneg; lia.
    + change (2 ^ 1074) with (2 ^ 53 * 2 ^ 1021).
      pose proof (pow2_pos 1021 ltac:(lia)). nia.
Qed.

Lemma displayed_full_iff p :
  in_unit p ->
  geb (VideoPanel.displayed p) (of_Z 100) = true <-> p = of_Z 1.
Proof.
  intros U. unfold geb. fold (leb (of_Z 100) (VideoPanel.displayed p)).
  change (of_Z 100) with (VideoPanel.displayed (of_Z 1)) at 1.
  rewrite (displayed_leb (of_Z 1) p one_in_unit U).
  change (percent (of_Z 1)) with (scaled_floor (2 ^ 1074)).
  rewrite scaled_floor_one. rewrite Z.leb_le.
  pose proof (in_unit_percent p U) as B. split.
  - intros H. destruct (sf_eqb p (of_Z 1)) eqn:E;
      [apply sf_eqb_eq in E; exact E|].
    assert (p <> of_Z 1).
    { intros ->. vm_compute in E. discriminate. }
    pose proof (percent_below_one p U ltac:(assumption)). lia.
  - intros ->. change (percent (of_Z 1)) with (scaled_floor (2 ^ 1074)).
    rewrite scaled_floor_one. lia.
Qed.

(** X11: within the interval [0, 1] the bar is full for the payload 1
    only: the listener stores 100 exactly when the payload is 1, and it
    is then, during a run, that it sets the detail to [Finishing up...];
    for every other payload, and outside a run, it leaves the detail as
    it is. *)
Theorem bar_full_only_at_one (p : number) (st : VideoPanel.state) :
  in_unit p ->
  let st' := VideoPanel.on_video_progress p st in
  (VideoPanel.progress st' = of_Z 100 <-> p = of_Z 1) /\
  (p = of_Z 1 -> VideoPanel.status st = processing_s ->
   VideoPanel.statusDetail st' = lit "Finishing up...") /\
  (p <> of_Z 1 -> VideoPanel.statusDetail st' = VideoPanel.statusDetail st) /\
  (VideoPanel.status st <> processing_s ->
   VideoPanel.statusDetail st' = VideoPanel.statusDetail st).
Proof.
  intros U. cbv zeta. unfold VideoPanel.on_video_progress.
  cbn [VideoPanel.progress VideoPanel.statusDetail].
  pose proof (displayed_full_iff p U) as F.
  split; [|split; [|split]].
  - split.
    + intros H. apply F. rewrite H. reflexivity.
    + intros ->. vm_compute. reflexivity.
  - intros Hp Hs. apply F in Hp. rewrite Hp, Hs. reflexivity.
  - intros Hp.
    destruct (geb (VideoPanel.displayed p) (of_Z 100)) eqn:G; [|reflexivity].
    exfalso. apply Hp. apply F. reflexivity.
  - intros Hs. destruct (VideoPanel.status st); try congruence;
      rewrite andb_false_r; reflexivity.
Qed.

Lemma bar_full_only_at_one_witness :
  in_unit (of_decimal 999999 (-6)) /\
  VideoPanel.progress
    (VideoPanel.on_video_progress (of_decimal 999999 (-6)) running_state)
  = of_Z 99 /\
  VideoPanel.statusDetail
    (VideoPanel.on_video_progress (of_decimal 999999 (-6)) running_state)
  = VideoPanel.statusDetail running_state.
Proof.
  assert (U : in_unit (of_decimal 999999 (-6)))
    by (repeat split; vm_compute; reflexivity).
  split; [exact U|]. split; [vm_compute; reflexivity|].
  destruct (bar_full_only_at_one (of_decimal 999999 (-6)) running_state U)
    as (_ & _ & H3 & _).
  apply H3. intros H. vm_compute in H. discriminate H.
Defined.

(** ** A run of the video command, continued *)

Lemma listener_keeps_run_fields feed st :
  let st' := fold_left (fun s e => VideoPanel.on_video_progress e s) feed st in
  VideoPanel.processing st' = VideoPanel.processing st /\
  VideoPanel.outputPath st' = VideoPanel.outputPath st /\
  VideoPanel.processError st' = VideoPanel.processError st /\
  VideoPanel.startedAt st' = VideoPanel.startedAt st.
Proof.
  revert st. induction feed as [|p feed IH]; intros st; cbn;
    [repeat split|].
  destruct (IH (VideoPanel.on_video_progress p st)) as (A & B & C & D).
  cbv zeta in *. rewrite A, B, C, D. repeat split.
Qed.

(** X12: after a run of [processVideo] the saved file and its OPEN
    button are shown exactly when [process_video] resolved and the
    output field of the configuration was not blank; the path shown is
    then the trimmed one. After a failed run they are never shown. *)
Theorem saved_file_shown_iff
        (now : number) (config : video.VideoConfig) (feed : list number)
        (result : invoke_result) (st : VideoPanel.state) :
  let st' := VideoPanel.processVideo now config feed result st in
  (VideoPanel.saved_shown st' = true <->
   result = Resolved /\ ~ blank (video.output_video_path config)) /\
  (VideoPanel.saved_shown st' = true ->
   exists s, video.output_video_path config = JSstr s /\
             VideoPanel.outputPath st' = JSstr (trim s)).
Proof.
  cbv zeta. unfold VideoPanel.processVideo, VideoPanel.saved_shown.
  destruct result as [|m]; cbn [VideoPanel.processVideo_settle
    VideoPanel.outputPath VideoPanel.status].
  - unfold VideoPanel.payload.
    cbn [video.output_video_path video.set_output_video_path].
    rewrite andb_true_r.
    destruct (video.output_video_path config) as [| |s]; cbn.
    + split; [split; [discriminate | tauto] | discriminate].
    + split; [split; [discriminate | tauto] | discriminate].
    + destruct (trim s) as [|c t] eqn:E; cbn.
      * split; [split; [discriminate | tauto] | discriminate].
      * split; [split; [intros _; split; [reflexivity | discriminate]
                       | reflexivity]|].
        intros _. exists s. rewrite E. split; reflexivity.
  - rewrite andb_false_r. split; [split|]; try discriminate.
    intros [H _]. discriminate.
Qed.

Lemma saved_file_shown_iff_witness :
  let st' := VideoPanel.processVideo (of_Z 1700000000000)
               accepted_video_config [] Resolved mounted_state in
  VideoPanel.saved_shown st' = true /\
  exists s, video.output_video_path accepted_video_config = JSstr s /\
            VideoPanel.outputPath st' = JSstr (trim s).
Proof.
  cbv zeta. split; [vm_compute; reflexivity|].
  apply (saved_file_shown_iff (of_Z 1700000000000) accepted_video_config []
           Resolved mounted_state).
  vm_compute; reflexivity.
Defined.


(** X13: a run cannot be started while another is in progress: from the
    moment [processVideo] starts, and through any progress events,
    [canSubmit] is false for every configuration; once the command has
    settled, either way, [canSubmit] depends on the validation alone. *)
Theorem no_submit_while_running
        (now : number) (st : VideoPanel.state) (feed : list number)
        (config : video.VideoConfig) :
  let running :=
    fold_left (fun s e => VideoPanel.on_video_progress e s) feed
              (VideoPanel.processVideo_begin now st) in
  VideoPanel.canSubmit running config = false /\
  (forall result p,
     VideoPanel.canSubmit (VideoPanel.processVideo_settle result p running)
                          config
     = (length (VideoPanel.validationErrors config) =? 0)%nat).
Proof.
  cbv zeta. unfold VideoPanel.canSubmit. split.
  - destruct (listener_keeps_run_fields feed
                (VideoPanel.processVideo_begin now st)) as (A & _).
    cbv zeta in A. rewrite A. reflexivity.
  - intros [|m] p; reflexivity.
Qed.

(** ** From a fresh form to a run *)

(** X14: on a fresh image form, picking an input whose path is not blank
    and one output, text or image, whose path is not empty is enough to
    enable the submit button; with no output picked the form stays
    rejected, and a dismissed dialog changes nothing. *)
Theorem picked_files_enable_submit (path out : jsstring) :
  trim path <> [] -> out <> [] ->
  let c := ImagePanel.pickImage (Some path) image.defaultImageConfig in
  ImagePanel.canSubmit false (ImagePanel.pickTextOutput (Some out) c) = true /\
  ImagePanel.canSubmit false (ImagePanel.pickImageOutput (Some out) c) = true /\
  ImagePanel.canSubmit false c = false /\
  ImagePanel.pickTextOutput None c = c /\
  ImagePanel.pickImageOutput None c = c.
Proof.
  intros Hp Ho. cbv zeta. unfold ImagePanel.canSubmit. cbn [negb andb].
  assert (T : truthy (trim path) = true)
    by (revert Hp; destruct (trim path); [congruence | reflexivity]).
  assert (O : truthy out = true)
    by (revert Ho; destruct out; [congruence | reflexivity]).
  split; [|split; [|split; [|split; reflexivity]]].
  - assert (A : ImagePanel.validationErrors
                  (ImagePanel.pickTextOutput (Some out)
                     (ImagePanel.pickImage (Some path) image.defaultImageConfig))
                = []).
    { apply image_validation_accepts_iff.
      split; [exact T|]. split; [left; exact O|].
      repeat split; vm_compute; reflexivity. }
    rewrite A. reflexivity.
  - assert (A : ImagePanel.validationErrors
                  (ImagePanel.pickImageOutput (Some out)
                     (ImagePanel.pickImage (Some path) image.defaultImageConfig))
                = []).
    { apply image_validation_accepts_iff.
      split; [exact T|]. split; [right; exact O|].
      repeat split; vm_compute; reflexivity. }
    rewrite A. reflexivity.
  - unfold ImagePanel.validationErrors.
    cbn [ImagePanel.pickImage image.image_path image.output_file_path
         image.output_image_path image.defaultImageConfig].
    rewrite T. reflexivity.
Qed.

Lemma picked_files_enable_submit_witness :
  ImagePanel.canSubmit false
    (ImagePanel.pickTextOutput (Some (lit "a.txt"))
       (ImagePanel.pickImage (Some (lit "a.png")) image.defaultImageConfig))
  = true.
Proof.
  apply (picked_files_enable_submit (lit "a.png") (lit "a.txt"));
    intros H; vm_compute in H; discriminate H.
Defined.

(** ** Rounding a quotient *)

Lemma divmod_step_frac W D :
  0 <= W -> 0 < D ->
  W / (2 * D) = (W / D) / 2 /\
  W mod (2 * D) = W mod D + D * ((W / D) mod 2).
Proof.
  intros Hw Hd.
  pose proof (Z.div_mod W D ltac:(lia)) as E1.
  pose proof (Z.mod_pos_bound W D Hd) as B1.
  pose proof (Z.div_mod (W / D) 2 ltac:(lia)) as E2.
  pose proof (Z.mod_pos_bound (W / D) 2 ltac:(lia)) as B2.
  set (m := W / D) in *. set (r := W mod D) in *.
  set (m' := m / 2) in *. set (b := m mod 2) in *.
  assert (E : W = (2 * D) * m' + (r + D * b)) by nia.
  assert (B : 0 <= r + D * b < 2 * D) by nia.
  split.
  - symmetry. apply (Z.div_unique W (2 * D) m' (r + D * b)); [lia | exact E].
  - symmetry. apply (Z.mod_unique W (2 * D) m' (r + D * b)); [lia | exact E].
Qed.

(** One step of [shr] on a quotient: the denominator doubles. *)
Lemma shr_1_frac W D rec :
  0 <= W -> 0 < D ->
  shr_m rec = W / D ->
  loc_of_shr_record rec = loc_of_frac (W mod D) D ->
  shr_m (shr_1 rec) = W / (2 * D) /\
  loc_of_shr_record (shr_1 rec) = loc_of_frac (W mod (2 * D)) (2 * D).
Proof.
  intros Hw Hd Hm Hl.
  destruct (divmod_step_frac W D Hw Hd) as [Ed Er].
  pose proof (Z.mod_pos_bound W D Hd) as B1.
  assert (Hq : 0 <= W / D) by (apply Z.div_pos; lia).
  rewrite Ed, Er, <- Hm. clear Ed Er.
  unfold loc_of_frac in *.
  set (r := W mod D) in *.
  destruct rec as [m rb sb]; simpl shr_m in *.
  rewrite <- Hm in Hq.
  assert (Hs : (rb || sb) = negb (r =? 0)).
  { destruct (Z.eqb_spec r 0) as [E0|N0]; destruct rb, sb; simpl in Hl |- *;
      try reflexivity; try discriminate. }
  assert (Hodd : forall p, Z.pos p~1 mod 2 = 1).
  { intros p. rewrite Pos2Z.inj_xI. symmetry.
    apply (Z.mod_unique _ 2 (Z.pos p) 1); lia. }
  assert (Heven : forall p, Z.pos p~0 mod 2 = 0).
  { intros p. rewrite Pos2Z.inj_xO. symmetry.
    apply (Z.mod_unique _ 2 (Z.pos p) 0); lia. }
  destruct m as [|[p|p|]|p]; try lia; simpl shr_1; rewrite Hs; simpl shr_m.
  - split; [reflexivity|].
    change (0 mod 2) with 0. rewrite Z.mul_0_r, Z.add_0_r.
    destruct (Z.eqb_spec r 0); cbn [loc_of_shr_record negb]; [reflexivity|].
    f_equal. symmetry. apply Z.compare_lt_iff. lia.
  - split; [rewrite Pos2Z.inj_xI; apply (Z.div_unique _ 2 _ 1); lia|].
    rewrite Hodd.
    destruct (Z.eqb_spec r 0) as [E0|N0]; cbn [loc_of_shr_record negb].
    + rewrite E0.
      replace (0 + D * 1 =? 0) with false by (symmetry; apply Z.eqb_neq; lia).
      f_equal. symmetry. apply Z.compare_eq_iff. lia.
    + replace (r + D * 1 =? 0) with false by (symmetry; apply Z.eqb_neq; lia).
      f_equal. symmetry. apply Z.compare_gt_iff. lia.
  - split; [rewrite Pos2Z.inj_xO; apply (Z.div_unique _ 2 _ 0); lia|].
    rewrite Heven, Z.mul_0_r, Z.add_0_r.
    destruct (Z.eqb_spec r 0); cbn [loc_of_shr_record negb]; [reflexivity|].
    f_equal. symmetry. apply Z.compare_lt_iff. lia.
  - split; [reflexivity|].
    change (1 mod 2) with 1.
    destruct (Z.eqb_spec r 0) as [E0|N0]; cbn [loc_of_shr_record negb].
    + rewrite E0.
      replace (0 + D * 1 =? 0) with false by (symmetry; apply Z.eqb_neq; lia).
      f_equal. symmetry. apply Z.compare_eq_iff. lia.
    + replace (r + D * 1 =? 0) with false by (symmetry; apply Z.eqb_neq; lia).
      f_equal. symmetry. apply Z.compare_gt_iff. lia.
Qed.

Lemma shr_iter_frac W D rec (k : nat) :
  0 <= W -> 0 < D ->
  shr_m rec = W / D ->
  loc_of_shr_record rec = loc_of_frac (W mod D) D ->
  let rec' := Nat.iter k shr_1 rec in
  shr_m rec' = W / (D * 2 ^ Z.of_nat k) /\
  loc_of_shr_record rec'
  = loc_of_frac (W mod (D * 2 ^ Z.of_nat k)) (D * 2 ^ Z.of_nat k).
Proof.
  intros Hw Hd Hm Hl. induction k as [|k IH].
  - simpl. rewrite Z.mul_1_r. split; assumption.
  - cbn zeta in *. rewrite Nat2Z.inj_succ, <- Z.add_1_r.
    rewrite Z.pow_add_r, Z.pow_1_r by lia. simpl Nat.iter.
    destruct IH as [IH1 IH2].
    replace (D * (2 ^ Z.of_nat k * 2)) with (2 * (D * 2 ^ Z.of_nat k)) by ring.
    apply shr_1_frac; auto. pose proof (pow2_pos (Z.of_nat k)). nia.
Qed.

Lemma shr_frac W D m e n :
  0 <= W -> 0 < D -> m = W / D -> 0 <= n ->
  let res := shr (shr_record_of_loc m (loc_of_frac (W mod D) D)) e n in
  shr_m (fst res) = W / (D * 2 ^ n) /\
  loc_of_shr_record (fst res) = loc_of_frac (W mod (D * 2 ^ n)) (D * 2 ^ n) /\
  snd res = e + n.
Proof.
  intros Hw Hd Hm Hn.
  assert (R1 : shr_m (shr_record_of_loc m (loc_of_frac (W mod D) D)) = W / D).
  { rewrite <- Hm. destruct (loc_of_frac (W mod D) D) as [|[]]; reflexivity. }
  assert (R2 : loc_of_shr_record
                 (shr_record_of_loc m (loc_of_frac (W mod D) D))
               = loc_of_frac (W mod D) D).
  { destruct (loc_of_frac (W mod D) D) as [|[]]; reflexivity. }
  destruct n as [|p|p]; [| |lia]; cbn [shr fst snd].
  - rewrite Z.mul_1_r, Z.add_0_r. repeat split; assumption.
  - rewrite iter_pos_nat.
    destruct (shr_iter_frac W D _ (Pos.to_nat p) Hw Hd R1 R2) as [H1 H2].
    rewrite positive_nat_Z in H1, H2. auto.
Qed.

Lemma rneq_bounds W D :
  0 <= W -> 0 < D -> W / D <= rneq W D <= W / D + 1.
Proof.
  intros Hw Hd. unfold rneq, loc_of_frac, round_nearest_even.
  destruct (W mod D =? 0); [lia|].
  destruct (2 * (W mod D) ?= D); try lia.
  destruct (Z.even (W / D)); lia.
Qed.

(** The rounded quotient goes up only from the half on. *)
Lemma rneq_up W D :
  0 <= W -> 0 < D -> rneq W D = W / D + 1 -> D <= 2 * (W mod D).
Proof.
  intros Hw Hd. unfold rneq, loc_of_frac, round_nearest_even.
  destruct (W mod D =? 0); [lia|].
  destruct (Z.compare_spec (2 * (W mod D)) D); try lia.
Qed.

Lemma rneq_scale W D c :
  0 <= W -> 0 < D -> 0 < c -> rneq (W * c) (D * c) = rneq W D.
Proof.
  intros Hw Hd Hc. unfold rneq, loc_of_frac.
  rewrite Z.div_mul_cancel_r by lia.
  rewrite Zmult_mod_distr_r.
  set (r := W mod D).
  replace (r * c =? 0) with (r =? 0).
  2:{ destruct (Z.eqb_spec r 0), (Z.eqb_spec (r * c) 0); try reflexivity; nia. }
  replace (2 * (r * c) ?= D * c) with (2 * r ?= D); [reflexivity|].
  destruct (Z.compare_spec (2 * r) D), (Z.compare_spec (2 * (r * c)) (D * c));
    try reflexivity; nia.
Qed.

(** [binary_round_aux] on the quotient [W / D] with the location of its
    remainder, when the exponent does not overflow: [W / (D * 2 ^ n)] is
    rounded to nearest at the exponent that [fexp] gives. *)
Lemma binary_round_aux_frac s W D e :
  0 <= W -> 0 < D -> 0 < W / D ->
  let E := fexp prec emax (Zdigits2 (W / D) + e) in
  e <= E -> E + 1 <= emax - prec ->
  binary_round_aux prec emax s (W / D) e (loc_of_frac (W mod D) D)
  = rounded s (rneq W (D * 2 ^ (E - e))) E.
Proof.
  intros Hw Hd Hq E HeE Hov.
  destruct (Zdigits2_bounds (W / D) Hq) as [Hd1 [HdL HdU]].
  set (n := E - e). assert (Hn : 0 <= n) by (unfold n; lia).
  assert (Ha : 0 < 2 ^ n) by (apply pow2_pos; lia).
  assert (HD : 0 < D * 2 ^ n) by nia.
  assert (Hqn : W / (D * 2 ^ n) < 2 ^ prec).
  { rewrite <- Z.div_div by lia.
    apply Z.div_lt_upper_bound; [lia|].
    rewrite <- Z.pow_add_r by (unfold prec; lia).
    eapply Z.lt_le_trans; [exact HdU|].
    apply Z.pow_le_mono_r; [lia|].
    unfold n, E, fexp. lia. }
  pose proof (rneq_bounds W (D * 2 ^ n) Hw HD) as HM.
  assert (Hq0 : 0 <= W / (D * 2 ^ n)) by (apply Z.div_pos; lia).
  unfold binary_round_aux.
  unfold shr_fexp at 1. fold E. fold n.
  destruct (shr_frac W D (W / D) e n Hw Hd eq_refl Hn) as (S1 & S2 & S3).
  destruct (shr (shr_record_of_loc (W / D) (loc_of_frac (W mod D) D)) e n)
    as [mrs' e'].
  cbn [fst snd] in S1, S2, S3. subst e'.
  replace (e + n) with E by (unfold n; lia).
  cbv beta iota.
  rewrite S1, S2. fold (rneq W (D * 2 ^ n)).
  set (M := rneq W (D * 2 ^ n)) in *.
  unfold rounded.
  pose proof (fexp_ge_emin (Zdigits2 (W / D) + e)) as HEmin. fold E in HEmin.
  destruct (Z.eqb_spec M 0) as [M0|M0].
  - rewrite M0. unfold shr_fexp. cbn [Zdigits2 shr_record_of_loc].
    rewrite Z.add_0_l.
    assert (Hsh : fexp prec emax E - E <= 0) by (unfold fexp, prec in *; lia).
    destruct (fexp prec emax E - E) as [|p|p]; try lia; reflexivity.
  - assert (HMpos : 0 < M) by lia.
    destruct (Zdigits2_bounds M HMpos) as [HD1 [HDL HDU]].
    destruct (Z.eqb_spec M (2 ^ prec)) as [Mp|Mp].
    + rewrite Mp. unfold shr_fexp.
      replace (Zdigits2 (2 ^ prec)) with (prec + 1) by reflexivity.
      replace (fexp prec emax (prec + 1 + E) - E) with 1
        by (unfold fexp, prec in *; lia).
      change (2 ^ prec) with 9007199254740992.
      change (2 ^ (prec - 1)) with 4503599627370496.
      cbn [shr_record_of_loc shr SpecFloat.iter_pos shr_1 shr_m fst snd Z.to_pos].
      destruct (Z.leb_spec (E + 1) (emax - prec)); [reflexivity | lia].
    + assert (HMlt : M < 2 ^ prec) by lia.
      assert (HDM : Zdigits2 M <= prec).
      { destruct (Z.le_gt_cases (Zdigits2 M) prec); auto.
        assert (2 ^ prec <= 2 ^ (Zdigits2 M - 1)) by (apply Z.pow_le_mono_r; lia).
        lia. }
      unfold shr_fexp.
      assert (Hsh : fexp prec emax (Zdigits2 M + E) - E <= 0)
        by (unfold fexp, prec in *; lia).
      cbn [shr_record_of_loc].
      destruct (fexp prec emax (Zdigits2 M + E) - E) as [|p|p]; try lia;
        cbn [shr shr_m fst snd];
        (destruct M as [|pm|pm]; try lia);
        (destruct (Z.leb_spec E (emax - prec)); [reflexivity | lia]).
Qed.

(** ** Whole numbers as numbers *)

Lemma pos_iter_xO p k : Z.pos (Pos.iter xO p k) = Z.pos p * 2 ^ Z.pos k.
Proof.
  induction k as [|k IH] using Pos.peano_ind.
  - cbn. rewrite Pos2Z.inj_xO. rewrite Z.pow_1_r. lia.
  - rewrite Pos.iter_succ, Pos2Z.inj_xO, IH, Pos2Z.inj_succ.
    rewrite Z.pow_succ_r by lia. ring.
Qed.

Lemma small_digits z : 0 < z < 2 ^ 53 -> 1 <= Zdigits2 z <= 53.
Proof.
  intros [H0 H1]. destruct (Zdigits2_bounds z H0) as (D1 & _ & _).
  split; [exact D1|]. apply Zdigits2_le; lia.
Qed.

(** The canonical mantissa and exponent of a whole number below
    [2 ^ 53]. *)
Lemma canonical_mantissa_bounds z :
  0 < z < 2 ^ 53 ->
  2 ^ 52 <= z * 2 ^ (53 - Zdigits2 z) < 2 ^ 53 /\
  Zdigits2 (z * 2 ^ (53 - Zdigits2 z)) = 53.
Proof.
  intros Hz. pose proof (small_digits z Hz) as Hd.
  destruct (Zdigits2_bounds z ltac:(lia)) as (_ & DL & DU).
  pose proof (pow2_pos (53 - Zdigits2 z) ltac:(lia)) as Hp.
  assert (E1 : 2 ^ 52 = 2 ^ (Zdigits2 z - 1) * 2 ^ (53 - Zdigits2 z))
    by (rewrite <- Z.pow_add_r by lia; f_equal; lia).
  assert (E2 : 2 ^ 53 = 2 ^ Zdigits2 z * 2 ^ (53 - Zdigits2 z))
    by (rewrite <- Z.pow_add_r by lia; f_equal; lia).
  split; [rewrite E1, E2; nia|].
  rewrite Zdigits2_shift by lia. lia.
Qed.

Lemma round_scaled z j :
  0 < z < 2 ^ 53 -> 0 <= j -> 0 <= Zdigits2 z - 53 + j ->
  binary_round_aux prec emax false (z * 2 ^ j) (- j) loc_Exact
  = S754_finite false (Z.to_pos (z * 2 ^ (53 - Zdigits2 z))) (Zdigits2 z - 53).
Proof.
  intros Hz Hj Hk. pose proof (small_digits z Hz) as Hd.
  destruct (canonical_mantissa_bounds z Hz) as ((ML & MU) & _).
  pose proof (pow2_pos j Hj) as Hp.
  assert (F : fexp prec emax (Zdigits2 (z * 2 ^ j) + - j) = Zdigits2 z - 53).
  { rewrite Zdigits2_shift by lia. unfold fexp, emin, emax, prec. lia. }
  rewrite binary_round_aux_exact;
    [ | nia | rewrite F; lia | rewrite F; unfold emax, prec; lia ].
  rewrite F.
  replace (z * 2 ^ j)
    with (z * 2 ^ (53 - Zdigits2 z) * 2 ^ (Zdigits2 z - 53 - - j)).
  2:{ rewrite <- Z.mul_assoc, <- Z.pow_add_r by lia. do 2 f_equal. lia. }
  rewrite rne_exact by lia.
  unfold rounded.
  destruct (Z.eqb_spec (z * 2 ^ (53 - Zdigits2 z)) 0); [lia|].
  destruct (Z.eqb_spec (z * 2 ^ (53 - Zdigits2 z)) (2 ^ prec));
    [unfold prec in *; lia | reflexivity].
Qed.

(** A whole number written with a scale is the number of that whole
    number. *)
Lemma normalize_scaled z j :
  0 < z < 2 ^ 53 -> 0 <= j ->
  binary_normalize prec emax (z * 2 ^ j) (- j) false
  = S754_finite false (Z.to_pos (z * 2 ^ (53 - Zdigits2 z))) (Zdigits2 z - 53).
Proof.
  intros Hz Hj. pose proof (small_digits z Hz) as Hd.
  pose proof (pow2_pos j Hj) as Hp.
  assert (Hpos : 0 < z * 2 ^ j) by nia.
  destruct (z * 2 ^ j) as [|p|p] eqn:Ezj; try lia.
  cbn [binary_normalize]. unfold binary_round.
  change (Z.pos (digits2_pos p)) with (Zdigits2 (Z.pos p)).
  rewrite <- Ezj. rewrite Zdigits2_shift by lia.
  replace (fexp prec emax (Zdigits2 z + j + - j)) with (Zdigits2 z - 53)
    by (unfold fexp, emin, emax, prec; lia).
  unfold shl_align.
  destruct (Zdigits2 z - 53 - - j) as [|k|k] eqn:Ek.
  - rewrite <- Ezj. apply round_scaled; lia.
  - rewrite <- Ezj. apply round_scaled; lia.
  - rewrite pos_iter_xO, <- Ezj.
    replace (z * 2 ^ j * 2 ^ Z.pos k) with (z * 2 ^ (53 - Zdigits2 z)).
    2:{ rewrite <- Z.mul_assoc, <- Z.pow_add_r by lia. do 2 f_equal. lia. }
    replace (Zdigits2 z - 53) with (- (53 - Zdigits2 z)) at 1 by lia.
    rewrite round_scaled; [reflexivity | lia | lia | lia].
Qed.

Lemma of_Z_repr z :
  0 < z < 2 ^ 53 ->
  of_Z z
  = S754_finite false (Z.to_pos (z * 2 ^ (53 - Zdigits2 z))) (Zdigits2 z - 53).
Proof.
  intros Hz. unfold of_Z.
  rewrite <- (normalize_scaled z 0 Hz ltac:(lia)).
  rewrite Z.pow_0_r, Z.mul_1_r. reflexivity.
Qed.

Lemma normalize_scaled_of_Z z j :
  0 <= z < 2 ^ 53 -> 0 <= j ->
  binary_normalize prec emax (z * 2 ^ j) (- j) false = of_Z z.
Proof.
  intros Hz Hj. destruct (Z.eq_dec z 0) as [->|Hne].
  - rewrite Z.mul_0_l. reflexivity.
  - rewrite of_Z_repr by lia. apply normalize_scaled; lia.
Qed.

(** The order of whole numbers below [2 ^ 53] is their order as
    numbers. *)
Lemma ltb_of_Z a b :
  0 <= a < 2 ^ 53 -> 0 <= b < 2 ^ 53 -> ltb (of_Z a) (of_Z b) = (a <? b).
Proof.
  intros Ha Hb.
  destruct (Z.eq_dec a 0) as [->|Na]; destruct (Z.eq_dec b 0) as [->|Nb].
  - reflexivity.
  - rewrite (of_Z_repr b) by lia. cbn.
    symmetry. apply Z.ltb_lt. lia.
  - rewrite (of_Z_repr a) by lia. cbn.
    symmetry. apply Z.ltb_ge. lia.
  - rewrite (of_Z_repr a), (of_Z_repr b) by lia.
    destruct (canonical_mantissa_bounds a ltac:(lia)) as ((AL & AU) & _).
    destruct (canonical_mantissa_bounds b ltac:(lia)) as ((BL & BU) & _).
    pose proof (small_digits a ltac:(lia)) as Da.
    pose proof (small_digits b ltac:(lia)) as Db.
    destruct (Zdigits2_bounds a ltac:(lia)) as (_ & AL' & AU').
    destruct (Zdigits2_bounds b ltac:(lia)) as (_ & BL' & BU').
    unfold ltb, SFltb, SFcompare.
    change (Pos.compare_cont Eq ?x ?y) with (Pos.compare x y).
    rewrite <- Z2Pos.inj_compare by lia.
    destruct (Z.compare_spec (Zdigits2 a - 53) (Zdigits2 b - 53)) as [C|C|C].
    + assert (Ed : Zdigits2 a = Zdigits2 b) by lia. rewrite Ed.
      pose proof (pow2_pos (53 - Zdigits2 b) ltac:(lia)) as Hp.
      destruct (Z.compare_spec (a * 2 ^ (53 - Zdigits2 b))
                               (b * 2 ^ (53 - Zdigits2 b)));
        symmetry; [apply Z.ltb_ge | apply Z.ltb_lt | apply Z.ltb_ge]; nia.
    + symmetry. apply Z.ltb_lt.
      assert (2 ^ Zdigits2 a <= 2 ^ (Zdigits2 b - 1))
        by (apply Z.pow_le_mono_r; lia).
      lia.
    + symmetry. apply Z.ltb_ge.
      assert (2 ^ Zdigits2 b <= 2 ^ (Zdigits2 a - 1))
        by (apply Z.pow_le_mono_r; lia).
      lia.
Qed.

(** ** Arithmetic on whole numbers *)

Lemma shl_align_fst m e e' :
  e' <= e -> Z.pos (fst (shl_align m e e')) = Z.pos m * 2 ^ (e - e').
Proof.
  intros H. unfold shl_align.
  destruct (e' - e) as [|k|k] eqn:Ek; cbn [fst]; try lia.
  - replace (e - e') with 0 by lia. rewrite Z.pow_0_r. lia.
  - rewrite pos_iter_xO. do 2 f_equal. lia.
Qed.

Lemma canonical_mantissa_id z :
  0 < z < 2 ^ 53 ->
  Z.pos (Z.to_pos (z * 2 ^ (53 - Zdigits2 z))) = z * 2 ^ (53 - Zdigits2 z).
Proof.
  intros Hz. destruct (canonical_mantissa_bounds z Hz) as ((ML & _) & _).
  apply Z2Pos.id. pose proof (pow2_pos 52 ltac:(lia)). lia.
Qed.

(** The difference of two whole numbers is computed exactly. *)
Lemma sub_of_Z n t :
  0 < t -> t <= n -> n < 2 ^ 53 -> sub (of_Z n) (of_Z t) = of_Z (n - t).
Proof.
  intros Ht Htn Hn.
  rewrite (of_Z_repr n), (of_Z_repr t) by lia.
  pose proof (small_digits n ltac:(lia)) as Dn.
  pose proof (small_digits t ltac:(lia)) as Dt.
  pose proof (Zdigits2_mono t n Ht Htn) as Dtn.
  unfold sub, SFsub. cbn [cond_Zopp].
  replace (Z.min (Zdigits2 n - 53) (Zdigits2 t - 53)) with (Zdigits2 t - 53)
    by lia.
  rewrite !shl_align_fst by lia.
  rewrite !canonical_mantissa_id by lia.
  replace (Zdigits2 t - 53 - (Zdigits2 t - 53)) with 0 by lia.
  rewrite Z.pow_0_r, Z.mul_1_r.
  rewrite <- Z.mul_assoc, <- Z.pow_add_r by lia.
  replace (53 - Zdigits2 n + (Zdigits2 n - 53 - (Zdigits2 t - 53)))
    with (53 - Zdigits2 t) by lia.
  rewrite <- Z.mul_sub_distr_r.
  replace (Zdigits2 t - 53) with (- (53 - Zdigits2 t)) by lia.
  apply normalize_scaled_of_Z; lia.
Qed.

Lemma new_location_frac d r :
  0 < d -> 0 <= r < d -> new_location d r = loc_of_frac r d.
Proof.
  intros Hd Hr. unfold new_location, new_location_even, new_location_odd,
    loc_of_frac.
  destruct (Z.even d) eqn:Ev; [reflexivity|].
  destruct (r =? 0); [reflexivity|]. f_equal.
  assert (Ho : Z.odd d = true) by (rewrite <- Z.negb_even, Ev; reflexivity).
  apply Z.odd_spec in Ho. destruct Ho as [k Hk].
  destruct (Z.compare_spec (2 * r + 1) d), (Z.compare_spec (2 * r) d);
    try reflexivity; lia.
Qed.

(** The rounded quotient of [a * t] by [b], cut back by [t], is the whole
    quotient of [a] by [b], as soon as [b < 2 * t]. *)
Lemma rneq_floor a b t :
  0 <= a -> 0 < b -> 0 < t -> b < 2 * t -> rneq (a * t) b / t = a / b.
Proof.
  intros Ha Hb Ht Hbt.
  pose proof (Z.div_mod a b ltac:(lia)) as Ea.
  pose proof (Z.mod_pos_bound a b Hb) as Ba.
  set (Q := a / b) in *. set (r0 := a mod b) in *.
  assert (HQ : 0 <= Q) by (apply Z.div_pos; lia).
  pose proof (rneq_bounds (a * t) b ltac:(nia) Hb) as BM.
  pose proof (rneq_up (a * t) b ltac:(nia) Hb) as UM.
  pose proof (Z.div_mod (a * t) b ltac:(lia)) as EX.
  pose proof (Z.mod_pos_bound (a * t) b Hb) as BX.
  set (M := rneq (a * t) b) in *.
  set (f := a * t / b) in *. set (x := (a * t) mod b) in *.
  assert (Hf1 : Q * t <= f).
  { apply Z.div_le_lower_bound; [lia|]. nia. }
  assert (Hf2 : f < (Q + 1) * t).
  { apply Z.div_lt_upper_bound; [lia|]. nia. }
  assert (HM : Q * t <= M < (Q + 1) * t).
  { split; [lia|].
    destruct (Z.eq_dec M (f + 1)) as [E1|N1]; [|lia].
    specialize (UM E1).
    destruct (Z.eq_dec f ((Q + 1) * t - 1)) as [E2|N2]; [|lia].
    exfalso. nia. }
  symmetry. apply (Z.div_unique M t Q (M - Q * t)); lia.
Qed.

(** [Math.floor(a / b)] on whole numbers is the whole quotient. *)
Lemma floor_div_of_Z a b :
  0 <= a < 2 ^ 51 -> 0 < b < 2 ^ 53 ->
  Math_floor (div (of_Z a) (of_Z b)) = of_Z (a / b).
Proof.
  intros Ha Hb.
  destruct (Z.eq_dec a 0) as [->|Na].
  { rewrite (of_Z_repr b) by lia. rewrite Z.div_0_l by lia. reflexivity. }
  assert (Ha53 : 0 < a < 2 ^ 53).
  { assert (2 ^ 51 < 2 ^ 53) by (apply Z.pow_lt_mono_r; lia). lia. }
  rewrite (of_Z_repr a), (of_Z_repr b) by lia.
  pose proof (small_digits a Ha53) as Da.
  pose proof (small_digits b Hb) as Db.
  assert (Da51 : Zdigits2 a <= 51) by (apply Zdigits2_le; lia).
  destruct (canonical_mantissa_bounds a Ha53) as ((AL & AU) & DA).
  destruct (canonical_mantissa_bounds b Hb) as ((BL & BU) & DB).
  unfold div, SFdiv, SFdiv_core_binary. cbn [xorb].
  rewrite !canonical_mantissa_id by lia.
  rewrite DA, DB.
  set (MA := a * 2 ^ (53 - Zdigits2 a)) in *.
  set (MB := b * 2 ^ (53 - Zdigits2 b)) in *.
  replace (53 + (Zdigits2 a - 53) - (53 + (Zdigits2 b - 53)))
    with (Zdigits2 a - Zdigits2 b) by lia.
  replace (Zdigits2 a - 53 - (Zdigits2 b - 53))
    with (Zdigits2 a - Zdigits2 b) by lia.
  replace (Z.min (fexp prec emax (Zdigits2 a - Zdigits2 b))
                 (Zdigits2 a - Zdigits2 b))
    with (Zdigits2 a - Zdigits2 b - 53)
    by (unfold fexp, emin, emax, prec; lia).
  replace (Zdigits2 a - Zdigits2 b - (Zdigits2 a - Zdigits2 b - 53))
    with 53 by lia.
  rewrite Z.shiftl_mul_pow2 by lia.
  set (W := MA * 2 ^ 53).
  assert (HW : 0 <= W) by (unfold W; nia).
  assert (Hdm : Z.div_eucl W MB = (W / MB, W mod MB)).
  { unfold Z.div, Z.modulo. destruct (Z.div_eucl W MB); reflexivity. }
  rewrite Hdm.
  pose proof (Z.mod_pos_bound W MB ltac:(lia)) as BW.
  rewrite new_location_frac by lia.
  assert (Hq1 : 2 ^ 52 <= W / MB).
  { apply Z.div_le_lower_bound; [lia|]. unfold W.
    change (2 ^ 53) with (2 * 2 ^ 52) in *. nia. }
  assert (Hq2 : W / MB < 2 ^ 54).
  { apply Z.div_lt_upper_bound; [lia|]. unfold W.
    change (2 ^ 54) with (2 * 2 ^ 53). change (2 ^ 53) with (2 * 2 ^ 52) in *.
    nia. }
  assert (Hq0 : 0 < W / MB) by (pose proof (pow2_pos 52); lia).
  assert (Dq : 53 <= Zdigits2 (W / MB) <= 54).
  { split; [apply (Zdigits2_ge _ 52); lia | apply Zdigits2_le; lia]. }
  set (e' := Zdigits2 a - Zdigits2 b - 53).
  assert (FE : fexp prec emax (Zdigits2 (W / MB) + e')
               = Zdigits2 (W / MB) + e' - 53)
    by (unfold fexp, emin, emax, prec, e'; lia).
  rewrite binary_round_aux_frac;
    [ | exact HW | lia | exact Hq0 | rewrite FE; lia
      | rewrite FE; unfold emax, prec, e'; lia ].
  rewrite FE.
  set (n := Zdigits2 (W / MB) + e' - 53 - e').
  assert (Hn : 0 <= n <= 1) by (unfold n; lia).
  set (E := Zdigits2 (W / MB) + e' - 53).
  assert (HE : - E = 53 - Zdigits2 a + Zdigits2 b - n)
    by (unfold E, n, e'; lia).
  pose proof (pow2_pos n ltac:(lia)) as Hpn.
  pose proof (rneq_bounds W (MB * 2 ^ n) HW ltac:(nia)) as BM.
  assert (Hqn : W / (MB * 2 ^ n) < 2 ^ prec).
  { rewrite <- Z.div_div by lia.
    apply Z.div_lt_upper_bound; [lia|].
    destruct (Zdigits2_bounds (W / MB) Hq0) as (_ & _ & U).
    eapply Z.lt_le_trans; [exact U|].
    rewrite <- Z.pow_add_r by (unfold prec; lia).
    apply Z.pow_le_mono_r; [lia|]. unfold n, prec. lia. }
  assert (Hqn0 : 0 <= W / (MB * 2 ^ n)) by (apply Z.div_pos; nia).
  rewrite floor_rounded; [ | lia | unfold E, e'; lia ].
  f_equal. rewrite HE.
  set (t := 2 ^ (53 - Zdigits2 a + Zdigits2 b - n)).
  assert (Ht : 0 < t) by (apply pow2_pos; lia).
  set (c := 2 ^ (53 - Zdigits2 b + n)).
  assert (Hc : 0 < c) by (apply pow2_pos; lia).
  assert (EW : W = a * t * c).
  { unfold W, MA, t, c. rewrite <- !Z.mul_assoc. f_equal.
    rewrite <- !Z.pow_add_r by lia. f_equal. lia. }
  assert (EB : MB * 2 ^ n = b * c).
  { unfold MB, c. rewrite <- Z.mul_assoc. f_equal.
    rewrite <- Z.pow_add_r by lia. reflexivity. }
  rewrite EW, EB. rewrite rneq_scale by nia.
  apply rneq_floor; try lia.
  destruct (Zdigits2_bounds b ltac:(lia)) as (_ & _ & UB).
  assert (2 ^ (Zdigits2 b + 1) <= t).
  { unfold t. apply Z.pow_le_mono_r; lia. }
  rewrite Z.pow_add_r, Z.pow_1_r in * by lia. lia.
Qed.

(** The remainder of whole numbers is computed exactly. *)
Lemma rem_of_Z a b :
  0 <= a < 2 ^ 53 -> 0 < b < 2 ^ 53 -> rem (of_Z a) (of_Z b) = of_Z (a mod b).
Proof.
  intros Ha Hb.
  destruct (Z.eq_dec a 0) as [->|Na].
  { rewrite (of_Z_repr b) by lia. rewrite Z.mod_0_l by lia. reflexivity. }
  rewrite (of_Z_repr a), (of_Z_repr b) by lia.
  pose proof (small_digits a ltac:(lia)) as Da.
  pose proof (small_digits b Hb) as Db.
  unfold rem. cbn [cond_Zopp].
  rewrite !canonical_mantissa_id by lia.
  set (e := Z.min (Zdigits2 a - 53) (Zdigits2 b - 53)).
  assert (He : e <= 0) by (unfold e; lia).
  rewrite <- !Z.mul_assoc, <- !Z.pow_add_r by (unfold e; lia).
  replace (53 - Zdigits2 a + (Zdigits2 a - 53 - e)) with (- e) by lia.
  replace (53 - Zdigits2 b + (Zdigits2 b - 53 - e)) with (- e) by lia.
  pose proof (pow2_pos (- e) ltac:(lia)) as Hp.
  rewrite Z.rem_mod_nonneg by nia.
  rewrite Zmult_mod_distr_r.
  replace e with (- - e) at 2 by lia.
  pose proof (Z.mod_pos_bound a b ltac:(lia)).
  apply normalize_scaled_of_Z; lia.
Qed.

(** ** The elapsed time *)

Lemma number_truthy_of_Z t : 0 < t < 2 ^ 53 -> number_truthy (of_Z t) = true.
Proof. intros Ht. rewrite of_Z_repr by lia. reflexivity. Qed.

(** When the getter runs at a time [n], at or after the start [t] of the
    run, both in whole milliseconds, it returns the whole seconds
    elapsed when they are fewer than 60, and the whole minutes followed
    by the remaining seconds otherwise. *)
Lemma getter_minutes_seconds (t n : Z) (st : VideoPanel.state) :
  0 < t -> t <= n -> n < 2 ^ 51 ->
  VideoPanel.startedAt st = Some (of_Z t) ->
  VideoPanel.elapsedText_getter (of_Z n) st = Some (elapsed_pieces (n - t)).
Proof.
  intros Ht Htn Hn Hst.
  assert (H51 : 2 ^ 51 < 2 ^ 53) by (apply Z.pow_lt_mono_r; lia).
  assert (Hs : 0 <= (n - t) / 1000) by (apply Z.div_pos; lia).
  assert (Hs' : (n - t) / 1000 < 2 ^ 51).
  { apply Z.div_lt_upper_bound; lia. }
  unfold VideoPanel.elapsedText_getter, elapsed_pieces. rewrite Hst.
  rewrite number_truthy_of_Z by lia. cbn [negb].
  rewrite sub_of_Z by lia.
  rewrite (floor_div_of_Z (n - t) 1000) by lia.
  rewrite (ltb_of_Z ((n - t) / 1000) 60) by lia.
  destruct ((n - t) / 1000 <? 60); [reflexivity|].
  rewrite (floor_div_of_Z ((n - t) / 1000) 60) by lia.
  rewrite (rem_of_Z ((n - t) / 1000) 60) by lia.
  reflexivity.
Qed.

Lemma sf_eqb_refl x : sf_eqb x x = true.
Proof.
  destruct x as [s|s| |s m e]; cbn; try reflexivity;
    try (destruct s; reflexivity).
  rewrite Pos.eqb_refl, Z.eqb_refl. destruct s; reflexivity.
Qed.

Lemma Object_is_refl a : VideoPanel.Object_is a a = true.
Proof. destruct a as [x|]; [apply sf_eqb_refl | reflexivity]. Qed.

Lemma assign_same_started st' p :
  VideoPanel.startedAt st' = VideoPanel.startedAt (VideoPanel.refs p) ->
  VideoPanel.elapsed (VideoPanel.assign st' p) = VideoPanel.elapsed p.
Proof.
  intros H. unfold VideoPanel.assign. cbn [VideoPanel.elapsed].
  rewrite H, Object_is_refl. reflexivity.
Qed.

(** Progress events and the settling of the command leave [startedAt]
    and what [elapsedText] keeps as they are. *)
Lemma step_unread p e :
  unread e = true ->
  VideoPanel.startedAt (VideoPanel.refs (VideoPanel.step p e))
  = VideoPanel.startedAt (VideoPanel.refs p) /\
  VideoPanel.elapsed (VideoPanel.step p e) = VideoPanel.elapsed p.
Proof.
  destruct e as [now|payload|result c| |now]; cbn [unread]; try discriminate;
    intros _; cbn [VideoPanel.step].
  - split; [reflexivity | apply assign_same_started; reflexivity].
  - split; [destruct result; reflexivity|].
    apply assign_same_started. destruct result; reflexivity.
Qed.

Lemma steps_unread events : forall p,
  forallb unread events = true ->
  VideoPanel.startedAt (VideoPanel.refs (VideoPanel.steps p events))
  = VideoPanel.startedAt (VideoPanel.refs p) /\
  VideoPanel.elapsed (VideoPanel.steps p events) = VideoPanel.elapsed p.
Proof.
  induction events as [|e events IH]; intros p H; [split; reflexivity|].
  cbn [forallb] in H. apply andb_prop in H. destruct H as [He Hl].
  destruct (step_unread p e He) as [A B].
  destruct (IH (VideoPanel.step p e) Hl) as [C D].
  unfold VideoPanel.steps in *. cbn [fold_left].
  rewrite C, D, A, B. split; reflexivity.
Qed.

(** A value that [elapsedText] keeps survives every event that assigns
    no new value to [startedAt], renderings included. *)
Lemma steps_within_run events : forall p v,
  forallb within_run events = true ->
  VideoPanel.elapsed p = Some v ->
  VideoPanel.startedAt (VideoPanel.refs (VideoPanel.steps p events))
  = VideoPanel.startedAt (VideoPanel.refs p) /\
  VideoPanel.elapsed (VideoPanel.steps p events) = Some v.
Proof.
  induction events as [|e events IH]; intros p v H Hv; [split; [reflexivity | exact Hv]|].
  cbn [forallb] in H. apply andb_prop in H. destruct H as [He Hl].
  assert (S1 : VideoPanel.startedAt (VideoPanel.refs (VideoPanel.step p e))
               = VideoPanel.startedAt (VideoPanel.refs p) /\
               VideoPanel.elapsed (VideoPanel.step p e) = Some v).
  { destruct e as [now|payload|result c| |now]; cbn [within_run] in He;
      try discriminate.
    - destruct (step_unread p (VideoPanel.Progressed payload) eq_refl) as [A B].
      rewrite A, B. split; [reflexivity | exact Hv].
    - destruct (step_unread p (VideoPanel.Settled result c) eq_refl) as [A B].
      rewrite A, B. split; [reflexivity | exact Hv].
    - cbn [VideoPanel.step]. unfold VideoPanel.elapsedText. rewrite Hv.
      split; [reflexivity | exact Hv]. }
  destruct S1 as [A B].
  destruct (IH (VideoPanel.step p e) v Hl B) as [C D].
  unfold VideoPanel.steps in *. cbn [fold_left].
  rewrite C, D, A. split; reflexivity.
Qed.

(** X15: [elapsedText] does not follow the clock. Once [processVideo]
    has set [startedAt] to a new time [t], the first reading, at a time
    [n] at or after [t] (whole milliseconds below 2^51), shows the whole
    seconds elapsed when they are fewer than 60, and the whole minutes
    and the remaining seconds otherwise. Every later reading, at
    whatever time, through progress events, renderings and the end of
    the run, shows that same text; after RESET nothing is shown. *)
Theorem elapsed_text_kept_from_first_reading
        (t n : Z) (p : VideoPanel.panel)
        (before after : list VideoPanel.event) (later : number) :
  0 < t -> t <= n -> n < 2 ^ 51 ->
  VideoPanel.Object_is (VideoPanel.startedAt (VideoPanel.refs p))
                       (Some (of_Z t)) = false ->
  forallb unread before = true ->
  forallb within_run after = true ->
  let running :=
    VideoPanel.steps (VideoPanel.step p (VideoPanel.Started (of_Z t))) before in
  let first := VideoPanel.elapsedText (of_Z n) running in
  fst first = Some (elapsed_pieces (n - t)) /\
  fst (VideoPanel.elapsedText later (VideoPanel.steps (snd first) after))
  = fst first /\
  fst (VideoPanel.elapsedText later
         (VideoPanel.step (VideoPanel.steps (snd first) after) VideoPanel.Reset))
  = None.
Proof.
  intros Ht Htn Hn Hnew Hb Ha. cbv zeta.
  set (p0 := VideoPanel.step p (VideoPanel.Started (of_Z t))).
  assert (S0 : VideoPanel.startedAt (VideoPanel.refs p0) = Some (of_Z t))
    by reflexivity.
  assert (E0 : VideoPanel.elapsed p0 = None).
  { unfold p0. cbn [VideoPanel.step]. unfold VideoPanel.assign.
    cbn [VideoPanel.elapsed VideoPanel.refs VideoPanel.processVideo_begin
         VideoPanel.startedAt].
    rewrite Hnew. reflexivity. }
  destruct (steps_unread before p0 Hb) as [S1 E1].
  rewrite S0 in S1. rewrite E0 in E1.
  set (p1 := VideoPanel.steps p0 before) in *.
  assert (G : VideoPanel.elapsedText_getter (of_Z n) (VideoPanel.refs p1)
              = Some (elapsed_pieces (n - t)))
    by (apply getter_minutes_seconds; assumption).
  set (p2 := {| VideoPanel.refs := VideoPanel.refs p1;
                VideoPanel.elapsed := Some (Some (elapsed_pieces (n - t))) |}).
  assert (F : VideoPanel.elapsedText (of_Z n) p1
              = (Some (elapsed_pieces (n - t)), p2)).
  { unfold VideoPanel.elapsedText. rewrite E1. cbv zeta. rewrite G.
    reflexivity. }
  rewrite F. cbn [fst snd].
  destruct (steps_within_run after p2 (Some (elapsed_pieces (n - t))) Ha eq_refl)
    as [S3 E3].
  cbn [p2 VideoPanel.refs] in S3. rewrite S1 in S3.
  split; [reflexivity|]. split.
  - unfold VideoPanel.elapsedText. rewrite E3. reflexivity.
  - cbn [VideoPanel.step]. unfold VideoPanel.elapsedText, VideoPanel.assign.
    cbn [VideoPanel.elapsed VideoPanel.refs VideoPanel.resetState
         VideoPanel.startedAt].
    rewrite S3. cbn [VideoPanel.Object_is]. reflexivity.
Qed.

Lemma elapsed_text_kept_from_first_reading_witness :
  let first :=
    VideoPanel.elapsedText (of_Z 1700000125000)
      (VideoPanel.step mounted_panel (VideoPanel.Started (of_Z 1700000000000))) in
  fst first
  = Some [VideoPanel.num (of_Z 2); VideoPanel.text (lit "m ");
          VideoPanel.num (of_Z 5); VideoPanel.text (lit "s elapsed")] /\
  fst (VideoPanel.elapsedText (of_Z 1700000400000)
         (VideoPanel.steps (snd first) sample_run))
  = fst first.
Proof.
  cbv zeta.
  pose proof (elapsed_text_kept_from_first_reading
                1700000000000 1700000125000 mounted_panel [] sample_run
                (of_Z 1700000400000)
                ltac:(lia) ltac:(lia) ltac:(reflexivity)
                eq_refl eq_refl eq_refl) as H.
  cbv zeta in H. destruct H as (A & B & _).
  split; [exact A | exact B].
Defined.
